(** * PedigreeMaker.js: a shallow embedding and its checked properties

    The development follows [src/PedigreeMaker.js] (version 2.0.0).

    Modelling conventions.
    - A JavaScript number is an exact rational ([Q]); the arithmetic of the
      source is written with [Qplus], [Qmult], [Qdiv].  Rounding error of
      IEEE doubles is outside the model, and every statement that divides
      by a spacing assumes that spacing to be non-zero.
    - Person ids are strings (sequences of code units); the working copy
      [this.data] is a list of records, mutated by index exactly where the
      source mutates the objects of the array.
    - [this.nodeCoords] and [childrenByParents] are insertion-ordered
      association lists, because the source enumerates them with [for..in].
      Ids are assumed not to be names of [Object.prototype] properties.
    - The 2D context is modelled by the list of calls made on it. *)

From Stdlib Require Import QArith Qround Qminmax Qabs ZArith NArith List String Ascii Bool Lia Sorted Permutation.
Import ListNotations.
Local Open Scope string_scope.
Local Open Scope list_scope.
Local Open Scope Q_scope.

Set Implicit Arguments.

(* ------------------------------------------------------------------ *)
(** ** The fragments of JavaScript the source relies on *)

Module Js.

(** [<] and [===] on numbers. *)
Definition ltb (a b : Q) : bool := negb (Qle_bool b a).
Definition eqb (a b : Q) : bool := Qeq_bool a b.

(** [Math.round]: the nearest integer, halves going up. *)
Definition Math_round (a : Q) : Q := inject_Z (Qfloor (a + (1 # 2))).

(** [Math.PI], the double 0x400921FB54442D18, as the rational it is. *)
Definition Math_PI : Q := 884279719003555 # 281474976710656.

(** [Math.min(...l)] and [Math.max(...l)] on a list whose first element
    is given apart. *)
Definition Math_min_list (a : Q) (l : list Q) : Q := fold_left Qmin l a.
Definition Math_max_list (a : Q) (l : list Q) : Q := fold_left Qmax l a.

(** Truthiness of a string: only the empty string is falsy. *)
Definition truthy (s : string) : bool := negb (String.eqb s "").

(** [Array.prototype.sort()] without comparator, on strings: ascending
    code-unit order.  Equal strings are indistinguishable, so the result
    does not depend on the engine's algorithm. *)
Fixpoint insert (s : string) (l : list string) : list string :=
  match l with
  | [] => [s]
  | h :: t => if String.leb s h then s :: l else h :: insert s t
  end.

Definition sort (l : list string) : list string := fold_right insert [] l.

(** [Array.prototype.join(sep)]. *)
Fixpoint join (sep : string) (l : list string) : string :=
  match l with
  | [] => ""
  | [a] => a
  | a :: t => (a ++ sep ++ join sep t)%string
  end.

(** [String.prototype.split(c)] for a one-character separator. *)
Fixpoint split (c : ascii) (s : string) : list string :=
  match s with
  | EmptyString => [""]
  | String a r =>
      if Ascii.eqb a c then "" :: split c r
      else match split c r with
           | h :: t => String a h :: t
           | [] => [String a ""]
           end
  end.

(** [a[i]] used as a property name: a hole reads [undefined], which as a
    key is the string "undefined". *)
Definition index_key (a : list string) (i : nat) : string :=
  nth i a "undefined".

(** Keys that are canonical array indices are enumerated first by
    [for..in], in ascending numeric order. *)
Definition digit_val (a : ascii) : option N :=
  let n := N_of_ascii a in
  if (48 <=? n)%N && (n <=? 57)%N then Some (n - 48)%N else None.

Fixpoint parse_digits (acc : N) (s : string) : option N :=
  match s with
  | EmptyString => Some acc
  | String a r =>
      match digit_val a with
      | Some d => parse_digits (acc * 10 + d)%N r
      | None => None
      end
  end.

Definition array_index (s : string) : option N :=
  match s with
  | EmptyString => None
  | String a r =>
      if Ascii.eqb a "0" && negb (String.eqb r "") then None
      else match parse_digits 0 s with
           | Some n => if (n <? 4294967295)%N then Some n else None
           | None => None
           end
  end.

Fixpoint insert_index (k : N * string) (l : list (N * string)) :=
  match l with
  | [] => [k]
  | h :: t => if (fst k <=? fst h)%N then k :: l else h :: insert_index k t
  end.

(** The enumeration order of the own keys of an ordinary object. *)
Definition forin_order (keys : list string) : list string :=
  let idx := flat_map (fun k => match array_index k with
                                | Some n => [(n, k)]
                                | None => []
                                end) keys in
  let rest := filter (fun k => match array_index k with
                               | Some _ => false
                               | None => true
                               end) keys in
  map snd (fold_right insert_index [] idx) ++ rest.

(** An object used as a dictionary, in insertion order. *)
Section Dict.
Variable V : Type.

Fixpoint get (k : string) (o : list (string * V)) : option V :=
  match o with
  | [] => None
  | (k', v) :: t => if String.eqb k k' then Some v else get k t
  end.

(** [o[k] = v]: an existing property keeps its place. *)
Fixpoint set (k : string) (v : V) (o : list (string * V)) : list (string * V) :=
  match o with
  | [] => [(k, v)]
  | (k', v') :: t =>
      if String.eqb k k' then (k, v) :: t else (k', v') :: set k v t
  end.
End Dict.

(** Replace the element at an index, as a mutation of the object stored
    there; nothing happens out of range (the source never does that). *)
Fixpoint update (A : Type) (i : nat) (f : A -> A) (l : list A) : list A :=
  match l, i with
  | [], _ => []
  | a :: t, O => f a :: t
  | a :: t, S i' => a :: update i' f t
  end.

(** [a.find(p)], as the index of the element found. *)
Fixpoint find_index (A : Type) (p : A -> bool) (l : list A) : option nat :=
  match l with
  | [] => None
  | a :: t => if p a then Some O else option_map S (find_index p t)
  end.

End Js.

(* ------------------------------------------------------------------ *)
(** ** Data model *)

Record Pos : Type := mkPos { x : Q; y : Q }.

Record Person : Type := mkPerson {
  id : string;
  name : string;
  sex : string;
  pos : Pos;
  mate : option string;
  parents : option (list string);
  phenotypes : option (list string);
  isProband : bool
}.

Record Style : Type := mkStyle {
  facecolor : option string;
  description : string
}.

(** [config.phenotypes]: the constructor merges the caller's registry over
    the defaults, so the entry [default_affected] is always present. *)
Record Registry : Type := mkRegistry {
  default_affected : Style;
  entries : list (string * Style)
}.

Record Padding : Type := mkPadding { padding_top : Q; padding_left : Q }.

Record Config : Type := mkConfig {
  nodeWidth : Q;
  nodeHeight : Q;
  hSpacing : Q;
  vSpacing : Q;
  lineWidth : Q;
  lineColor : string;
  font : string;
  probandArrowSize : Q;
  padding : Padding;
  autoLayoutOptimize : bool;
  interactive : bool;
  registry : Registry;
  (** [onNodeMoved] receives the working copy itself and may mutate it. *)
  onNodeMoved : option (list Person -> list Person)
}.

(** Calls on the 2D context, in the order they are made. *)
Inductive cmd : Type :=
| ClearRect (x0 y0 w h : Q)
| BeginPath
| ClosePath
| MoveTo (x0 y0 : Q)
| LineTo (x0 y0 : Q)
| Arc (x0 y0 r a0 a1 : Q)
| Rect (x0 y0 w h : Q)
| FillRect (x0 y0 w h : Q)
| Fill
| Stroke
| FillText (s : string) (x0 y0 : Q)
| SetStrokeStyle (s : string)
| SetLineWidth (w : Q)
| SetFillStyle (s : string)
| SetFont (s : string)
| SetTextAlign (s : string)
| SetShadowColor (s : string)
| SetShadowBlur (b : Q).

(** How a call ends: normally, or with an uncaught [TypeError]. *)
Inductive completion : Type :=
| Normal
| TypeError.

(** What [this.dragTarget] refers to: the object at an index of the current
    working copy, or an object of a working copy that has been replaced
    since the drag began. *)
Inductive DragRef : Type :=
| Live (i : nat)
| Detached (p : Person).

Record Canvas : Type := mkCanvas { width : Q; height : Q }.

Record State : Type := mkState {
  canvas : Canvas;
  cursor : string;
  data : list Person;
  originalData : list Person;
  config : Config;
  nodeCoords : list (string * Pos);
  isDragging : bool;
  dragTarget : option DragRef;
  dragOffset : Pos;
  lastMousePos : Pos
}.

(* ------------------------------------------------------------------ *)
(** ** Field updates *)

Definition set_pos (v : Pos) (p : Person) : Person :=
  mkPerson (id p) (name p) (sex p) v (mate p) (parents p) (phenotypes p)
           (isProband p).

Definition set_pos_x (v : Q) (p : Person) : Person :=
  set_pos (mkPos v (y (pos p))) p.

Definition set_parents (v : option (list string)) (p : Person) : Person :=
  mkPerson (id p) (name p) (sex p) (pos p) (mate p) v (phenotypes p)
           (isProband p).

(** [person.parents?.sort()] and [person.parents.sort()]: the array is
    sorted in place. *)
Definition sort_parents (p : Person) : Person :=
  set_parents (option_map Js.sort (parents p)) p.

Definition set_autoLayoutOptimize (b : bool) (c : Config) : Config :=
  mkConfig (nodeWidth c) (nodeHeight c) (hSpacing c) (vSpacing c)
           (lineWidth c) (lineColor c) (font c) (probandArrowSize c)
           (padding c) b (interactive c) (registry c) (onNodeMoved c).

Definition set_data (d : list Person) (s : State) : State :=
  mkState (canvas s) (cursor s) d (originalData s) (config s) (nodeCoords s)
          (isDragging s) (dragTarget s) (dragOffset s) (lastMousePos s).

Definition set_nodeCoords (nc : list (string * Pos)) (s : State) : State :=
  mkState (canvas s) (cursor s) (data s) (originalData s) (config s) nc
          (isDragging s) (dragTarget s) (dragOffset s) (lastMousePos s).

Definition set_config (c : Config) (s : State) : State :=
  mkState (canvas s) (cursor s) (data s) (originalData s) c (nodeCoords s)
          (isDragging s) (dragTarget s) (dragOffset s) (lastMousePos s).

Definition set_cursor (c : string) (s : State) : State :=
  mkState (canvas s) c (data s) (originalData s) (config s) (nodeCoords s)
          (isDragging s) (dragTarget s) (dragOffset s) (lastMousePos s).

Definition set_lastMousePos (p : Pos) (s : State) : State :=
  mkState (canvas s) (cursor s) (data s) (originalData s) (config s)
          (nodeCoords s) (isDragging s) (dragTarget s) (dragOffset s) p.

Definition set_drag (b : bool) (t : option DragRef) (o : Pos) (s : State) : State :=
  mkState (canvas s) (cursor s) (data s) (originalData s) (config s)
          (nodeCoords s) b t o (lastMousePos s).

(** The number a loop index stands for. *)
Definition num (i : nat) : Q := inject_Z (Z.of_nat i).

(** [a.forEach((v, i) => ...)] collecting what each call emits. *)
Fixpoint forEach_i (A B : Type) (f : A -> nat -> list B) (i : nat) (l : list A)
  : list B :=
  match l with
  | [] => []
  | a :: t => f a i ++ forEach_i f (S i) t
  end.

(* ------------------------------------------------------------------ *)
(** ** Layout engine *)

(** [_getPixelCoords(gridX, gridY)]. *)
Definition _getPixelCoords (cfg : Config) (gridX gridY : Q) : Pos :=
  mkPos (gridX * hSpacing cfg + padding_left (padding cfg))
        (gridY * vSpacing cfg + padding_top (padding cfg)).

(** The inverse transform, which the source writes inline in
    [_handleMouseMove]: exact inverse, [Math.round], [Math.max(0, _)]. *)
Definition pixelToGrid (cfg : Config) (newPixelX newPixelY : Q) : Pos :=
  let newGridX :=
    Js.Math_round ((newPixelX - padding_left (padding cfg)) / hSpacing cfg) in
  let newGridY :=
    Js.Math_round ((newPixelY - padding_top (padding cfg)) / vSpacing cfg) in
  mkPos (Qmax 0 newGridX) (Qmax 0 newGridY).

(** [JSON.stringify(p.parents?.sort()) === JSON.stringify(r.parents?.sort())
    && p.parents !== undefined]: [JSON.stringify] is injective on arrays of
    strings and maps [undefined] to [undefined]. *)
Definition areSiblings (person potentialObstacle : Person) : bool :=
  match parents person, parents potentialObstacle with
  | Some a, Some b =>
      if list_eq_dec string_dec (Js.sort a) (Js.sort b) then true else false
  | _, _ => false
  end.

(** The three assignments that exchange the x-coordinates of the objects
    at indices [i] and [k]. *)
Definition swap_x (i k : nat) (d : list Person) : list Person :=
  match nth_error d i, nth_error d k with
  | Some person, Some potentialObstacle =>
      let personOriginalX := x (pos person) in
      Js.update k (set_pos_x personOriginalX)
        (Js.update i (set_pos_x (x (pos potentialObstacle))) d)
  | _, _ => d
  end.

(** The tests that make the object at index [k] an obstacle on the line
    from [person] to [partner]. *)
Definition isObstacle (person partner potentialObstacle : Person)
    (lineStartX lineEndX : Q) : bool :=
  negb (String.eqb (id potentialObstacle) (id person))
  && negb (String.eqb (id potentialObstacle) (id partner))
  && Js.eqb (y (pos potentialObstacle)) (y (pos person))
  && Js.ltb lineStartX (x (pos potentialObstacle))
  && Js.ltb (x (pos potentialObstacle)) lineEndX.

(** Body of the inner [forEach] of [_optimizeLayout]: [person] is the
    object at index [i], [partner] the one at index [j], [potentialObstacle]
    the one at index [k]. *)
Definition obstacle_step (i j : nat) (lineStartX lineEndX : Q)
    (d : list Person) (k : nat) : list Person :=
  match nth_error d i, nth_error d j, nth_error d k with
  | Some person, Some partner, Some potentialObstacle =>
      if isObstacle person partner potentialObstacle lineStartX lineEndX then
        let d' := Js.update k sort_parents (Js.update i sort_parents d) in
        if areSiblings person potentialObstacle then swap_x i k d' else d'
      else d
  | _, _, _ => d
  end.

(** Body of the outer [forEach]. *)
Definition optimize_person (d : list Person) (i : nat) : list Person :=
  match nth_error d i with
  | Some person =>
      match mate person with
      | Some m =>
          if Js.truthy m then
            match Js.find_index (fun p => String.eqb (id p) m) d with
            | Some j =>
                match nth_error d j with
                | Some partner =>
                    let lineStartX := Qmin (x (pos person)) (x (pos partner)) in
                    let lineEndX := Qmax (x (pos person)) (x (pos partner)) in
                    fold_left (obstacle_step i j lineStartX lineEndX)
                              (seq 0 (List.length d)) d
                | None => d
                end
            | None => d
            end
          else d
      | None => d
      end
  | None => d
  end.

Definition _optimizeLayout (cfg : Config) (d : list Person) : list Person :=
  if autoLayoutOptimize cfg then
    fold_left optimize_person (seq 0 (List.length d)) d
  else d.

(* ------------------------------------------------------------------ *)
(** ** Render pipeline *)

(** [this.config.phenotypes[phenoId] ||
    this.config.phenotypes['default_affected']]. *)
Definition style_of (cfg : Config) (phenoId : string) : Style :=
  if String.eqb phenoId "default_affected" then default_affected (registry cfg)
  else match Js.get phenoId (entries (registry cfg)) with
       | Some style => style
       | None => default_affected (registry cfg)
       end.

(** [if (style.facecolor)]: the colour, when there is a truthy one. *)
Definition fill_of (style : Style) : option string :=
  match facecolor style with
  | Some c => if Js.truthy c then Some c else None
  | None => None
  end.

(** One wedge of the pie drawn for sex ['F']. *)
Definition wedge (cfg : Config) (numPhenotypes : nat) (x0 y0 : Q)
    (phenoId : string) (i : nat) : list cmd :=
  let radius := nodeWidth cfg / 2 in
  let angleStep := (2 * Js.Math_PI) / num numPhenotypes in
  match fill_of (style_of cfg phenoId) with
  | Some c =>
      [SetFillStyle c; BeginPath; MoveTo x0 y0;
       Arc x0 y0 radius (angleStep * num i) (angleStep * (num i + 1));
       ClosePath; Fill]
  | None => []
  end.

(** One bar of the box drawn for sex ['M']. *)
Definition bar (cfg : Config) (numPhenotypes : nat) (x0 y0 : Q)
    (phenoId : string) (i : nat) : list cmd :=
  let barWidth := nodeWidth cfg / num numPhenotypes in
  let startX := x0 - nodeWidth cfg / 2 in
  match fill_of (style_of cfg phenoId) with
  | Some c =>
      [SetFillStyle c;
       FillRect (startX + num i * barWidth) (y0 - nodeHeight cfg / 2)
                barWidth (nodeHeight cfg)]
  | None => []
  end.

(** [_drawPhenotypeFill(person, x, y)]; the caller has checked that
    [person.phenotypes] is there. *)
Definition _drawPhenotypeFill (cfg : Config) (person : Person) (x0 y0 : Q)
  : list cmd :=
  match phenotypes person with
  | None => []
  | Some phs =>
      let numPhenotypes := List.length phs in
      if Nat.eqb numPhenotypes 0 then []
      else if String.eqb (sex person) "F" then
        forEach_i (wedge cfg numPhenotypes x0 y0) 0 phs
      else if String.eqb (sex person) "M" then
        forEach_i (bar cfg numPhenotypes x0 y0) 0 phs
      else []
  end.

(** [_drawText(text, x, y)]. *)
Definition _drawText (cfg : Config) (text : string) (x0 y0 : Q) : list cmd :=
  [SetFillStyle (lineColor cfg); SetFont (font cfg); SetTextAlign "center"]
  ++ forEach_i (fun line i => [FillText line x0 (y0 + 10 + num i * 14)]) 0
       (Js.split "010"%char text).

(** The outline, by [person.sex]. *)
Definition outline (cfg : Config) (person : Person) (x0 y0 : Q) : list cmd :=
  if String.eqb (sex person) "M" then
    [Rect (x0 - nodeWidth cfg / 2) (y0 - nodeHeight cfg / 2)
          (nodeWidth cfg) (nodeHeight cfg)]
  else if String.eqb (sex person) "F" then
    [Arc x0 y0 (nodeWidth cfg / 2) 0 (2 * Js.Math_PI)]
  else [].

Definition probandArrow (cfg : Config) (x0 y0 : Q) : list cmd :=
  let arrowX := x0 - nodeWidth cfg / 2 - 5 in
  [BeginPath; MoveTo (arrowX - probandArrowSize cfg) y0; LineTo arrowX y0;
   MoveTo arrowX y0; LineTo (arrowX - 5) (y0 - 5);
   MoveTo arrowX y0; LineTo (arrowX - 5) (y0 + 5); Stroke].

(** The calls [_drawNode(person)] makes on the context; [dragId] is
    [this.dragTarget.id] when there is a drag target. *)
Definition _drawNode_cmds (cfg : Config) (dragId : option string)
    (person : Person) : list cmd :=
  let c := _getPixelCoords cfg (x (pos person)) (y (pos person)) in
  (match dragId with
   | Some t =>
       if String.eqb t (id person)
       then [SetShadowColor "rgba(0, 123, 255, 0.5)"; SetShadowBlur 10]
       else []
   | None => []
   end)
  ++ (match phenotypes person with
      | Some phs =>
          if Nat.ltb 0 (List.length phs)
          then _drawPhenotypeFill cfg person (x c) (y c)
          else []
      | None => []
      end)
  ++ [BeginPath; SetStrokeStyle (lineColor cfg); SetLineWidth (lineWidth cfg)]
  ++ outline cfg person (x c) (y c)
  ++ [Stroke; SetShadowColor "transparent"; SetShadowBlur 0]
  ++ (if isProband person then probandArrow cfg (x c) (y c) else [])
  ++ _drawText cfg (name person) (x c) (y c + nodeHeight cfg / 2 + 5).

(** [_drawNode(person)]: records the pixel position in [this.nodeCoords],
    then draws. *)
Definition _drawNode (cfg : Config) (dragId : option string)
    (acc : list (string * Pos) * list cmd) (person : Person)
  : list (string * Pos) * list cmd :=
  let c := _getPixelCoords cfg (x (pos person)) (y (pos person)) in
  (Js.set (id person) c (fst acc),
   snd acc ++ _drawNode_cmds cfg dragId person).

(** [this.data.forEach(person => this._drawNode(person))]. *)
Definition drawNodes (cfg : Config) (dragId : option string)
    (d : list Person) (nc : list (string * Pos))
  : list (string * Pos) * list cmd :=
  fold_left (_drawNode cfg dragId) d (nc, []).

(* ------------------------------------------------------------------ *)
(** ** Connection router *)

Definition hasTwoParents (person : Person) : bool :=
  match parents person with
  | Some ps => Nat.eqb (List.length ps) 2
  | None => false
  end.

(** [person.parents.sort().join('-')]. *)
Definition parentKey (person : Person) : string :=
  match parents person with
  | Some ps => Js.join "-" (Js.sort ps)
  | None => ""
  end.

(** [[person.id, person.mate].sort().join('-')]. *)
Definition partnershipKey (personId m : string) : string :=
  Js.join "-" (Js.sort [personId; m]).

(** First loop of [_drawConnections], on [childrenByParents]. *)
Definition addChild (children : list (string * list string))
    (person : Person) : list (string * list string) :=
  if hasTwoParents person then
    match Js.get (parentKey person) children with
    | Some ids => Js.set (parentKey person) (ids ++ [id person]) children
    | None => Js.set (parentKey person) [id person] children
    end
  else children.

Definition groupChildren (d : list Person) : list (string * list string) :=
  fold_left addChild d [].

(** First loop of [_drawConnections], on the working copy: the [sort()] of
    the key is in place. *)
Definition sortGrouped (d : list Person) : list Person :=
  map (fun person => if hasTwoParents person then sort_parents person
                     else person) d.

(** Body of the second loop: [acc] is [drawnPartnerships] with the calls
    made so far. *)
Definition partnership_step (cfg : Config) (nc : list (string * Pos))
    (children : list (string * list string))
    (acc : list string * list cmd) (person : Person)
  : list string * list cmd :=
  match mate person with
  | Some m =>
      if Js.truthy m then
        let key := partnershipKey (id person) m in
        if existsb (String.eqb key) (fst acc) then acc
        else
          match Js.get (id person) nc, Js.get m nc with
          | Some p1, Some p2 =>
              let leftNode := if Js.ltb (x p1) (x p2) then p1 else p2 in
              let rightNode := if Js.ltb (x p1) (x p2) then p2 else p1 in
              let midX := (x p1 + x p2) / 2 in
              (fst acc ++ [key],
               snd acc
               ++ [BeginPath;
                   MoveTo (x leftNode + nodeWidth cfg / 2) (y leftNode);
                   LineTo (x rightNode - nodeWidth cfg / 2) (y rightNode);
                   Stroke]
               ++ match Js.get key children with
                  | Some _ =>
                      [BeginPath; MoveTo midX (y p1);
                       LineTo midX (y p1 + vSpacing cfg / 2); Stroke]
                  | None => []
                  end)
          | _, _ => acc
          end
      else acc
  | None => acc
  end.

Definition drawPartnerships (cfg : Config) (nc : list (string * Pos))
    (children : list (string * list string)) (d : list Person)
  : list string * list cmd :=
  fold_left (partnership_step cfg nc children) d ([], []).

(** [a.map(c => c.x)] on coordinates that may be [undefined]: reading [.x]
    of [undefined] throws. *)
Fixpoint xs_of (l : list (option Pos)) : option (list Q) :=
  match l with
  | [] => Some []
  | Some c :: t => option_map (cons (x c)) (xs_of t)
  | None :: _ => None
  end.

(** Body of the third loop, for one key of [childrenByParents]; [None] is
    a [TypeError] (a property of [undefined] was read), thrown before any
    call on the context.  A bucket is created with its first child, so the
    case of no child is never reached from [_drawConnections]. *)
Definition sibship (cfg : Config) (nc : list (string * Pos))
    (key : string) (childrenIds : list string) : option (list cmd) :=
  let parentIds := Js.split "-"%char key in
  match Js.get (Js.index_key parentIds 0) nc with
  | None => None
  | Some p1 =>
      let sibshipY := y p1 + vSpacing cfg / 2 in
      let childCoords := map (fun i => Js.get i nc) childrenIds in
      match xs_of childCoords with
      | None => None
      | Some [] => None
      | Some (cx :: cxs) =>
          let firstChildX := Js.Math_min_list cx cxs in
          let lastChildX := Js.Math_max_list cx cxs in
          match Js.get (Js.index_key parentIds 1) nc with
          | None => None
          | Some p2 =>
              let parentMidX := (x p1 + x p2) / 2 in
              let sibshipLineStart := Qmin parentMidX firstChildX in
              let sibshipLineEnd := Qmax parentMidX lastChildX in
              Some ([BeginPath; MoveTo sibshipLineStart sibshipY;
                     LineTo sibshipLineEnd sibshipY; Stroke]
                    ++ flat_map
                         (fun child =>
                            match child with
                            | Some c =>
                                [BeginPath; MoveTo (x c) sibshipY;
                                 LineTo (x c) (y c - nodeHeight cfg / 2);
                                 Stroke]
                            | None => []
                            end) childCoords)
          end
      end
  end.

(** The third loop: [for (const parentKey in childrenByParents)]. *)
Fixpoint drawSibships (cfg : Config) (nc : list (string * Pos))
    (children : list (string * list string)) (keys : list string)
  : list cmd * completion :=
  match keys with
  | [] => ([], Normal)
  | key :: rest =>
      match Js.get key children with
      | None => drawSibships cfg nc children rest
      | Some childrenIds =>
          match sibship cfg nc key childrenIds with
          | None => ([], TypeError)
          | Some out =>
              let (out', r) := drawSibships cfg nc children rest in
              (out ++ out', r)
          end
      end
  end.

(** [_drawConnections()]: the working copy after the in-place sorts, the
    calls on the context, and how the call ended. *)
Definition _drawConnections (cfg : Config) (nc : list (string * Pos))
    (d : list Person) : list Person * list cmd * completion :=
  let children := groupChildren d in
  let d' := sortGrouped d in
  let partnerships := snd (drawPartnerships cfg nc children d') in
  let (sibships, r) :=
    drawSibships cfg nc children (Js.forin_order (map fst children)) in
  (d',
   [SetStrokeStyle (lineColor cfg); SetLineWidth (lineWidth cfg)]
   ++ partnerships ++ sibships,
   r).

(** [this.dragTarget.id], when [this.dragTarget] is set. *)
Definition dragTargetId (d : list Person) (t : option DragRef) : option string :=
  match t with
  | Some (Live i) => option_map id (nth_error d i)
  | Some (Detached p) => Some (id p)
  | None => None
  end.

(** [render()]: the state it leaves, the calls it makes on the context,
    and how it ends. *)
Definition render (s : State) : State * list cmd * completion :=
  let cfg := config s in
  let d1 := _optimizeLayout cfg (data s) in
  let clear := [ClearRect 0 0 (width (canvas s)) (height (canvas s))] in
  let (nc, nodes) :=
    drawNodes cfg (dragTargetId d1 (dragTarget s)) d1 (nodeCoords s) in
  let '(d2, connections, r) := _drawConnections cfg nc d1 in
  (set_nodeCoords nc (set_data d2 s), clear ++ nodes ++ connections, r).

(* ------------------------------------------------------------------ *)
(** ** Interaction controller *)

Inductive hit : Type :=
| Hit (i : nat)
| Miss
| HitError.

(** The geometric test of [_findNodeAtPosition]; [Math.sqrt(d2) <= r] is
    [0 <= r] and [d2 <= r * r]. *)
Definition isInside (cfg : Config) (person : Person) (dx dy : Q) : bool :=
  if String.eqb (sex person) "F" then
    Qle_bool 0 (nodeWidth cfg / 2)
    && Qle_bool (dx * dx + dy * dy) ((nodeWidth cfg / 2) * (nodeWidth cfg / 2))
  else
    Qle_bool (Qabs dx) (nodeWidth cfg / 2)
    && Qle_bool (Qabs dy) (nodeHeight cfg / 2).

(** The loop of [_findNodeAtPosition(x, y)] over the keys of
    [this.nodeCoords]; a key without a person in the working copy makes
    [person.sex] throw. *)
Fixpoint findNode (cfg : Config) (d : list Person) (nc : list (string * Pos))
    (x0 y0 : Q) (keys : list string) : hit :=
  match keys with
  | [] => Miss
  | personId :: rest =>
      match Js.get personId nc with
      | None => HitError
      | Some coord =>
          let dx := x0 - x coord in
          let dy := y0 - y coord in
          match Js.find_index (fun p => String.eqb (id p) personId) d with
          | None => HitError
          | Some i =>
              match nth_error d i with
              | None => HitError
              | Some person =>
                  if isInside cfg person dx dy then Hit i
                  else findNode cfg d nc x0 y0 rest
              end
          end
      end
  end.

Definition _findNodeAtPosition (s : State) (x0 y0 : Q) : hit :=
  findNode (config s) (data s) (nodeCoords s) x0 y0
           (Js.forin_order (map fst (nodeCoords s))).

(** [_handleMouseDown(event)]; [mousePos] is what [_getMousePosition]
    returns for the event. *)
Definition _handleMouseDown (s : State) (mousePos : Pos) : State * completion :=
  match _findNodeAtPosition s (x mousePos) (y mousePos) with
  | HitError => (s, TypeError)
  | Miss => (s, Normal)
  | Hit i =>
      match option_map id (nth_error (data s) i) with
      | None => (s, TypeError)
      | Some clickedId =>
          match Js.get clickedId (nodeCoords s) with
          | None => (set_drag true (Some (Live i)) (dragOffset s) s, TypeError)
          | Some nodeCoord =>
              (set_cursor "grabbing"
                 (set_drag true (Some (Live i))
                    (mkPos (x mousePos - x nodeCoord) (y mousePos - y nodeCoord))
                    s),
               Normal)
          end
      end
  end.

(** The two assignments to [this.dragTarget.pos]. *)
Definition moveDragTarget (g : Pos) (t : DragRef) (s : State) : State :=
  match t with
  | Live i => set_data (Js.update i (set_pos g) (data s)) s
  | Detached p =>
      set_drag (isDragging s) (Some (Detached (set_pos g p))) (dragOffset s) s
  end.

(** [_handleMouseMove(event)]. *)
Definition _handleMouseMove (s : State) (mousePos : Pos)
  : State * list cmd * completion :=
  let s1 := set_lastMousePos mousePos s in
  match isDragging s1, dragTarget s1 with
  | true, Some t =>
      let newPixelX := x mousePos - x (dragOffset s1) in
      let newPixelY := y mousePos - y (dragOffset s1) in
      render (moveDragTarget (pixelToGrid (config s1) newPixelX newPixelY) t s1)
  | _, _ =>
      match _findNodeAtPosition s1 (x mousePos) (y mousePos) with
      | HitError => (s1, [], TypeError)
      | Hit _ => (set_cursor "grab" s1, [], Normal)
      | Miss => (set_cursor "default" s1, [], Normal)
      end
  end.

(** [_handleMouseUp(event)]. *)
Definition _handleMouseUp (s : State) : State :=
  if isDragging s then
    let s1 := set_cursor "default" (set_drag false None (dragOffset s) s) in
    match onNodeMoved (config s1) with
    | Some callback => set_data (callback (data s1)) s1
    | None => s1
    end
  else s.

(** The touch handlers pass the primary touch point to the mouse
    handlers. *)
Definition _handleTouchStart (s : State) (touchPos : Pos) := _handleMouseDown s touchPos.
Definition _handleTouchMove (s : State) (touchPos : Pos) := _handleMouseMove s touchPos.
Definition _handleTouchEnd (s : State) := _handleMouseUp s.

(* ------------------------------------------------------------------ *)
(** ** Construction and the public methods *)

(** The object a drag target keeps referring to once [this.data] has been
    assigned a new array. *)
Definition detach (d : list Person) (t : option DragRef) : option DragRef :=
  match t with
  | Some (Live i) => option_map Detached (nth_error d i)
  | other => other
  end.

(** [this.data = JSON.parse(JSON.stringify(d))]: a fresh array of fresh
    objects, equal to [d] on this data model; a drag target keeps the
    object it had. *)
Definition assignData (d : list Person) (s : State) : State :=
  set_data d
    (set_drag (isDragging s) (detach (data s) (dragTarget s)) (dragOffset s) s).

(** [resetPositions()]. *)
Definition resetPositions (s : State) : State * list cmd * completion :=
  render (assignData (originalData s) s).

(** [setData(newData)]. *)
Definition setData (s : State) (newData : list Person)
  : State * list cmd * completion :=
  render (assignData newData s).

(** [getData()]. *)
Definition getData (s : State) : list Person := data s.

(** [toggleAutoLayoutOptimize()]. *)
Definition toggleAutoLayoutOptimize (s : State) : State * list cmd * completion :=
  render (set_config
            (set_autoLayoutOptimize (negb (autoLayoutOptimize (config s)))
                                    (config s)) s).

(** The [options] argument of the constructor. *)
Record Options : Type := mkOptions {
  o_nodeWidth : option Q;
  o_nodeHeight : option Q;
  o_hSpacing : option Q;
  o_vSpacing : option Q;
  o_lineWidth : option Q;
  o_lineColor : option string;
  o_font : option string;
  o_probandArrowSize : option Q;
  o_padding_top : option Q;
  o_padding_left : option Q;
  o_autoLayoutOptimize : option bool;
  o_interactive : option bool;
  o_phenotypes : list (string * Style);
  o_onNodeMoved : option (list Person -> list Person)
}.

Definition or_default (A : Type) (o : option A) (d : A) : A :=
  match o with
  | Some v => v
  | None => d
  end.

(** The three [Object.assign] of the constructor over its [defaults]. *)
Definition mergeOptions (o : Options) : Config :=
  mkConfig (or_default (o_nodeWidth o) 50) (or_default (o_nodeHeight o) 50)
           (or_default (o_hSpacing o) 100) (or_default (o_vSpacing o) 120)
           (or_default (o_lineWidth o) 2) (or_default (o_lineColor o) "#333")
           (or_default (o_font o) "12px Arial")
           (or_default (o_probandArrowSize o) 15)
           (mkPadding (or_default (o_padding_top o) 50)
                      (or_default (o_padding_left o) 50))
           (or_default (o_autoLayoutOptimize o) true)
           (or_default (o_interactive o) true)
           (mkRegistry
              (or_default (Js.get "default_affected" (o_phenotypes o))
                          (mkStyle (Some "#a9a9a9") "Affected"))
              (o_phenotypes o))
           (o_onNodeMoved o).

(** [new PedigreeMaker(canvasId, pedigreeData, options)]; [None] when the
    canvas element is not found and the constructor throws.  The cursor
    style is set by [_setupInteractivity] only. *)
Definition constructor (c : option Canvas) (pedigreeData : list Person)
    (options : Options) : option State :=
  match c with
  | None => None
  | Some cv =>
      let cfg := mergeOptions options in
      Some (mkState cv (if interactive cfg then "default" else "")
                    pedigreeData pedigreeData cfg [] false None (mkPos 0 0)
                    (mkPos 0 0))
  end.

(** What can happen to an instance after construction.  The listeners are
    registered only when [config.interactive] is set. *)
Inductive op : Type :=
| OpRender
| OpSetData (newData : list Person)
| OpResetPositions
| OpToggleAutoLayoutOptimize
| OpMouseDown (mousePos : Pos)
| OpMouseMove (mousePos : Pos)
| OpMouseUp
| OpTouchStart (touchPos : Pos)
| OpTouchMove (touchPos : Pos)
| OpTouchEnd.

(** One call, an uncaught exception ending that call only; the state it
    leaves and the calls made on the context. *)
Definition step (s : State) (o : op) : State * list cmd :=
  match o with
  | OpRender => let '(s', out, _) := render s in (s', out)
  | OpSetData newData => let '(s', out, _) := setData s newData in (s', out)
  | OpResetPositions => let '(s', out, _) := resetPositions s in (s', out)
  | OpToggleAutoLayoutOptimize =>
      let '(s', out, _) := toggleAutoLayoutOptimize s in (s', out)
  | OpMouseDown p | OpTouchStart p =>
      if interactive (config s) then (fst (_handleMouseDown s p), [])
      else (s, [])
  | OpMouseMove p | OpTouchMove p =>
      if interactive (config s)
      then let '(s', out, _) := _handleMouseMove s p in (s', out)
      else (s, [])
  | OpMouseUp | OpTouchEnd =>
      if interactive (config s) then (_handleMouseUp s, []) else (s, [])
  end.

Definition run (s : State) (ops : list op) : State :=
  fold_left (fun s o => fst (step s o)) ops s.

(* ------------------------------------------------------------------ *)
(** ** Vocabulary of the statements *)

(** Coordinates of the context are compared as numbers. *)
Definition same_point (x1 y1 x2 y2 : Q) : bool :=
  Qeq_bool x1 x2 && Qeq_bool y1 y2.

(** A straight segment is a [moveTo] followed at once by a [lineTo]. *)
Fixpoint has_segment (out : list cmd) (x1 y1 x2 y2 : Q) : bool :=
  match out with
  | MoveTo a b :: ((LineTo c d :: _) as rest) =>
      (same_point a b x1 y1 && same_point c d x2 y2)
      || has_segment rest x1 y1 x2 y2
  | _ :: rest => has_segment rest x1 y1 x2 y2
  | [] => false
  end.

(** The angular spans of the arcs drawn, in order. *)
Definition arcs (out : list cmd) : list (Q * Q) :=
  flat_map (fun c => match c with
                     | Arc _ _ _ a0 a1 => [(a0, a1)]
                     | _ => []
                     end) out.

(** An angle that points to the top of the circle: a quarter turn before
    the 0 reference, up to full turns. *)
Definition at_top (a : Q) : Prop :=
  exists n : Z, a == inject_Z n * (2 * Js.Math_PI) - Js.Math_PI / 2.

(** Calls that paint a shape outline or a phenotype fill. *)
Definition is_shape_or_fill (c : cmd) : bool :=
  match c with
  | Rect _ _ _ _ | Arc _ _ _ _ _ | FillRect _ _ _ _ | Fill => true
  | _ => false
  end.


(** Everything of a person but the x-coordinate and the order of the
    [parents] array. *)
Definition same_but_x (p p' : Person) : Prop :=
  id p' = id p /\ name p' = name p /\ sex p' = sex p
  /\ y (pos p') = y (pos p) /\ mate p' = mate p
  /\ phenotypes p' = phenotypes p /\ isProband p' = isProband p
  /\ (parents p' = parents p \/ parents p' = option_map Js.sort (parents p)).

Definition nonneg (p : Person) : Prop :=
  0 <= x (pos p) /\ 0 <= y (pos p).

(** *** Example data *)

Definition person (i s : string) (gx gy : Q) (m : option string)
    (ps : option (list string)) : Person :=
  mkPerson i i s (mkPos gx gy) m ps None false.

Definition noOptions : Options :=
  mkOptions None None None None None None None None None None None None []
            None.

Definition defaults : Config := mergeOptions noOptions.

(** A fresh instance with the default configuration on a 800 x 500
    canvas. *)
Definition fresh (d : list Person) : State :=
  mkState (mkCanvas 800 500) "default" d d defaults [] false None
          (mkPos 0 0) (mkPos 0 0).

(** A child whose parents are not in the dataset. *)
Definition orphan : list Person :=
  [person "C" "F" (1 # 2) 1 None (Some ["A"; "B"])].


(** A couple and their child. *)
Definition family : list Person :=
  [person "A" "M" 0 0 None None;
   person "B" "F" 1 0 (Some "A") None;
   person "C" "F" (1 # 2) 1 None (Some ["B"; "A"])].

(** A woman with two phenotypes, as in the demonstration page. *)
Definition elsa : Person :=
  mkPerson "elsa" "Elsa" "F" (mkPos 2 0) None None (Some ["poi"; "bc"]) false.

(** A person with a phenotype and a sex that is neither ['M'] nor ['F']. *)
Definition stranger : Person :=
  mkPerson "s" "S" "U" (mkPos 0 0) None None (Some ["poi"]) false.

(** The wedge spans [_drawPhenotypeFill] is expected to draw for the
    phenotype list [phs]: one per phenotype whose style has a fill
    colour, at the place of the phenotype in the list. *)
Definition wedge_spans (cfg : Config) (phs : list string) : list (Q * Q) :=
  let angleStep := (2 * Js.Math_PI) / num (List.length phs) in
  flat_map (fun ip : nat * string =>
              match fill_of (style_of cfg (snd ip)) with
              | Some _ => [(angleStep * num (fst ip),
                            angleStep * (num (fst ip) + 1))]
              | None => []
              end)
           (combine (seq 0 (List.length phs)) phs).

(** A mated person, a sibling standing on the line to the mate, and
    [parents] arrays that are not in sorted order. *)
Definition crossing : list Person :=
  [person "P" "M" 0 0 (Some "Q") (Some ["b"; "a"]);
   person "Q" "F" 2 0 None None;
   person "R" "M" 1 0 None (Some ["b"; "a"])].


(** The order [Array.prototype.sort()] sorts strings by. *)
Definition leb_rel (a b : string) : Prop := String.leb a b = true.

(** Two working copies that differ, person by person, at most in
    x-coordinates and in the order of [parents] arrays. *)
Definition frame (d d' : list Person) : Prop := Forall2 same_but_x d d'.

(** An instance in the middle of a drag: rendered once, then the pointer
    pressed at [p]. *)
Definition dragging (d : list Person) (p : Pos) : State :=
  run (fresh d) [OpRender; OpMouseDown p].

(** A dataset with a person left of the grid origin. *)
Definition leftward : list Person :=
  [person "A" "M" 0 0 None None; person "B" "F" (-1) 0 None None].

(** A mated person right of a sibling. *)
Definition beside : list Person :=
  [person "P" "M" 2 0 (Some "Q") (Some ["a"; "b"]);
   person "Q" "F" 3 0 None None;
   person "R" "M" 1 0 None (Some ["a"; "b"])].

(** *** The second loop, iteration by iteration *)

(** The calls that draw the partnership line between the positions [p1]
    (of the person) and [p2] (of the mate). *)
Definition partnershipLine (cfg : Config) (p1 p2 : Pos) : list cmd :=
  let leftNode := if Js.ltb (x p1) (x p2) then p1 else p2 in
  let rightNode := if Js.ltb (x p1) (x p2) then p2 else p1 in
  [BeginPath; MoveTo (x leftNode + nodeWidth cfg / 2) (y leftNode);
   LineTo (x rightNode - nodeWidth cfg / 2) (y rightNode); Stroke].

(** The calls that draw the sibship drop line below the same two. *)
Definition dropLine (cfg : Config) (p1 p2 : Pos) : list cmd :=
  let midX := (x p1 + x p2) / 2 in
  [BeginPath; MoveTo midX (y p1); LineTo midX (y p1 + vSpacing cfg / 2);
   Stroke].

(** What the iteration for [person] adds when it starts with
    [drawnPartnerships] holding [drawn]: the key it records and the calls
    it makes, or nothing. *)
Definition partnership_emit (cfg : Config) (nc : list (string * Pos))
    (children : list (string * list string)) (drawn : list string)
    (person : Person) : option (string * list cmd) :=
  match mate person with
  | Some m =>
      if Js.truthy m then
        let key := partnershipKey (id person) m in
        if existsb (String.eqb key) drawn then None
        else
          match Js.get (id person) nc, Js.get m nc with
          | Some p1, Some p2 =>
              Some (key,
                    partnershipLine cfg p1 p2
                    ++ match Js.get key children with
                       | Some _ => dropLine cfg p1 p2
                       | None => []
                       end)
          | _, _ => None
          end
      else None
  | None => None
  end.

(** The iterations of the second loop that draw, in order, each with its
    key. *)
Fixpoint partnershipLog (cfg : Config) (nc : list (string * Pos))
    (children : list (string * list string)) (drawn : list string)
    (d : list Person) : list (string * list cmd) :=
  match d with
  | [] => []
  | person :: rest =>
      match partnership_emit cfg nc children drawn person with
      | Some (key, out) =>
          (key, out) :: partnershipLog cfg nc children (drawn ++ [key]) rest
      | None => partnershipLog cfg nc children drawn rest
      end
  end.

(** The person [p], whose mate is [m], and the ids [a] and [b] are the
    same pair. *)
Definition linked (p : Person) (m a b : string) : Prop :=
  (id p = a /\ m = b) \/ (id p = b /\ m = a).

(** Some person of [d] has a two-element [parents] array with the key
    [k]. *)
Definition has_children (k : string) (d : list Person) : bool :=
  existsb (fun c => hasTwoParents c && String.eqb (parentKey c) k) d.

(** A couple on two rows. *)
Definition slanted : list Person :=
  [person "A" "M" 0 0 (Some "B") None; person "B" "F" 1 1 None None].

(** Two couples whose ids give the same partnership key. *)
Definition hyphenated : list Person :=
  [person "a-b" "M" 0 0 (Some "c") None;
   person "c" "F" 1 0 None None;
   person "a" "M" 0 1 (Some "b-c") None;
   person "b-c" "F" 1 1 None None].

(** *** The Coordinate Index after the nodes are drawn *)

(** The assignments [o[k] = v] of a list of bindings, in order. *)
Definition setAll (V : Type) (l : list (string * V)) (o : list (string * V))
  : list (string * V) :=
  fold_left (fun o kv => Js.set (fst kv) (snd kv) o) l o.

(** The value the bindings of [l] leave under the key [k], [v] being the
    value before. *)
Definition lastval (V : Type) (k : string) (v : V) (l : list (string * V)) : V :=
  fold_left (fun v kv => if String.eqb (fst kv) k then snd kv else v) l v.

(** The bindings of [l] for other keys than [k]. *)
Definition others (V : Type) (k : string) (l : list (string * V))
  : list (string * V) :=
  filter (fun kv => negb (String.eqb (fst kv) k)) l.

(** The pixel position of every person, under the person's id. *)
Definition coordsOf (cfg : Config) (d : list Person) : list (string * Pos) :=
  map (fun p => (id p, _getPixelCoords cfg (x (pos p)) (y (pos p)))) d.

(** A mated person with two siblings on the line to the mate, the farther
    one first in the dataset. *)
Definition staggered : list Person :=
  [person "P" "M" 0 0 (Some "Q") (Some ["a"; "b"]);
   person "Q" "F" 3 0 None None;
   person "R1" "M" 2 0 None (Some ["a"; "b"]);
   person "R2" "M" 1 0 None (Some ["a"; "b"])].

(** A string without the character the keys are joined by. *)
Fixpoint no_hyphen (s : string) : bool :=
  match s with
  | EmptyString => true
  | String c r => negb (Ascii.eqb c "-") && no_hyphen r
  end.

(** *** Vocabulary of the further properties *)

(** The ids of the persons of [d] that have a two-element [parents] array
    with the key [k], in dataset order. *)
Definition bucket (k : string) (d : list Person) : list string :=
  map id (filter (fun q => hasTwoParents q && String.eqb (parentKey q) k) d).

(** The calls that draw the line from the sibship row down to the top
    edge of the node of a child at [c]. *)
Definition childLine (cfg : Config) (sibshipY : Q) (c : Pos) : list cmd :=
  [BeginPath; MoveTo (x c) sibshipY; LineTo (x c) (y c - nodeHeight cfg / 2);
   Stroke].


(** The calls of a loop body that did not throw. *)
Definition calls_of (o : option (list cmd)) : list cmd :=
  match o with
  | Some out => out
  | None => []
  end.

(** A Coordinate Index with two parents and a child to their right. *)
Definition trio : list (string * Pos) :=
  [("A", mkPos 50 50); ("B", mkPos 150 50); ("C", mkPos 300 170)].

(** The x-coordinates of a dataset, person by person. *)
Definition xs_of_data (d : list Person) : list Q :=
  map (fun p => x (pos p)) d.

(** Every key of the Coordinate Index is the id of a person of the
    working copy. *)
Definition index_clean (d : list Person) (nc : list (string * Pos)) : Prop :=
  forall k, In k (map fst nc) -> In k (map id d).

(** An instance whose dataset has been replaced after a render pass. *)
Definition replaced : State :=
  run (fresh family) [OpRender; OpSetData crossing].



(** The texts drawn, in order, each with its position. *)
Definition fillTexts (out : list cmd) : list (string * Q * Q) :=
  flat_map (fun c => match c with
                     | FillText s a b => [(s, a, b)]
                     | _ => []
                     end) out.





(** The label of a person as [_drawNode] has it drawn: every line with
    its position. *)
Definition label_of (cfg : Config) (p : Person) : list (string * Q * Q) :=
  let c := _getPixelCoords cfg (x (pos p)) (y (pos p)) in
  fillTexts (_drawText cfg (name p) (x c) (y c + nodeHeight cfg / 2 + 5)).

(* ------------------------------------------------------------------ *)
(** * Checked properties *)

Unset Implicit Arguments.

(** ** Numbers *)

Lemma Math_round_compat (a b : Q) : a == b -> Js.Math_round a = Js.Math_round b.
Proof.
  intros E. unfold Js.Math_round.
  assert (H : a + (1 # 2) == b + (1 # 2)) by (rewrite E; reflexivity).
  now rewrite (Qfloor_comp _ _ H).
Qed.

Lemma Math_round_integer (z : Z) : Js.Math_round (inject_Z z) = inject_Z z.
Proof.
  unfold Js.Math_round, Qfloor, Qplus, inject_Z; simpl.
  f_equal.
  replace (z * 2 + 1)%Z with (1 + z * 2)%Z by ring.
  rewrite Z.div_add by discriminate. reflexivity.
Qed.


(** ** C2: the inverse transform after the transform *)




(** ** C4: the wedges of the pie *)

Lemma arcs_app (a b : list cmd) : arcs (a ++ b) = arcs a ++ arcs b.
Proof. unfold arcs. apply flat_map_app. Qed.

Lemma arcs_wedges (cfg : Config) (n : nat) (x0 y0 : Q) (phs : list string) :
  forall i,
    arcs (forEach_i (wedge cfg n x0 y0) i phs)
    = flat_map (fun ip : nat * string =>
                  match fill_of (style_of cfg (snd ip)) with
                  | Some _ => [((2 * Js.Math_PI) / num n * num (fst ip),
                                (2 * Js.Math_PI) / num n * (num (fst ip) + 1))]
                  | None => []
                  end)
               (combine (seq i (List.length phs)) phs).
Proof.
  induction phs as [|ph phs IH]; intros i; simpl; [reflexivity|].
  rewrite arcs_app, IH. f_equal.
  unfold wedge. destruct (fill_of (style_of cfg ph)); reflexivity.
Qed.

Lemma not_at_top_0 : ~ at_top 0.
Proof.
  intros [n H]. unfold Js.Math_PI in H.
  unfold Qeq, Qminus, Qplus, Qmult, Qdiv, Qinv, Qopp, inject_Z in H.
  simpl in H. lia.
Qed.

(** C4, as stated, fails: the first wedge of a two-phenotype pie starts
    at the angle 0 of the context, which is not the top of the circle. *)
Lemma first_wedge_not_at_top :
  exists a0 a1 rest,
    arcs (_drawPhenotypeFill defaults elsa 250 50) = (a0, a1) :: rest
    /\ a0 == 0 /\ ~ at_top a0.
Proof.
  eexists _, _, _. split; [vm_compute; reflexivity|].
  split; [reflexivity|].
  intros [n H]. apply not_at_top_0. exists n.
  rewrite <- H. reflexivity.
Qed.

(** C4, amended: for a person of sex ['F'] with k >= 1 phenotypes, the
    fill consists of one wedge for each phenotype whose style has a fill
    colour (k wedges when all have one), in phenotype list order; the
    wedge of the i-th phenotype (from 0) spans from i k-ths to (i+1) k-ths
    of the full turn, so each spans one k-th of it, and the wedge of the
    first phenotype starts at the angle 0 of the context, without a
    quarter-turn rotation. *)
Theorem phenotype_wedges (cfg : Config) (p : Person) (x0 y0 : Q)
    (ph : string) (phs : list string) :
  sex p = "F" -> phenotypes p = Some (ph :: phs) ->
  let k := List.length (ph :: phs) in
  let out := arcs (_drawPhenotypeFill cfg p x0 y0) in
  out = wedge_spans cfg (ph :: phs)
  /\ (forall a0 a1, In (a0, a1) out -> a1 - a0 == (2 * Js.Math_PI) / num k)
  /\ ((forall q, In q (ph :: phs) -> fill_of (style_of cfg q) <> None) ->
      List.length out = k)
  /\ (fill_of (style_of cfg ph) <> None ->
      exists a0 a1 rest, out = (a0, a1) :: rest /\ a0 == 0 /\ ~ at_top a0).
Proof.
  intros Hs Hp k out.
  assert (E : out = wedge_spans cfg (ph :: phs)).
  { unfold out, _drawPhenotypeFill. rewrite Hp, Hs.
    change (Nat.eqb (List.length (ph :: phs)) 0) with false.
    change (String.eqb "F" "F") with true. cbv iota.
    rewrite arcs_wedges. reflexivity. }
  split; [exact E|]. rewrite E. unfold wedge_spans. subst k.
  split; [|split].
  - intros a0 a1 Hin. apply in_flat_map in Hin. destruct Hin as [[i q] [_ Hin]].
    simpl in Hin. destruct (fill_of (style_of cfg q)); [|contradiction].
    destruct Hin as [Hin|[]]. inversion Hin; subst.
    cbn [List.length]. unfold Qdiv. ring.
  - intros Hall.
    generalize ((2 * Js.Math_PI) / num (List.length (ph :: phs))). intros st.
    generalize 0%nat. revert Hall. generalize (ph :: phs). clear.
    induction l as [|q l IH]; intros Hall i; [reflexivity|].
    cbn [List.length seq combine flat_map fst snd].
    destruct (fill_of (style_of cfg q)) eqn:F.
    + cbn [List.length app]. f_equal. apply IH.
      intros q' Hq'. apply Hall. right; exact Hq'.
    + exfalso. apply (Hall q); [left; reflexivity|exact F].
  - intros Hf.
    cbn [List.length seq combine flat_map fst snd].
    destruct (fill_of (style_of cfg ph)); [|congruence].
    eexists _, _, _. split; [reflexivity|].
    assert (Z0 : 2 * Js.Math_PI / num (S (List.length phs)) * num 0 == 0)
      by (unfold num at 2, Qdiv; simpl; ring).
    split; [exact Z0|].
    intros [n H]. apply not_at_top_0. exists n. rewrite <- H, Z0. reflexivity.
Qed.

Lemma phenotype_wedges_witness :
  arcs (_drawPhenotypeFill defaults elsa 250 50)
  = wedge_spans defaults ["poi"; "bc"].
Proof.
  exact (proj1 (phenotype_wedges defaults elsa 250 50 "poi" ["bc"]
                  eq_refl eq_refl)).
Defined.

(** ** C8: a sex that is neither ['M'] nor ['F'] *)

Lemma no_shape_in_text (cfg : Config) (text : string) (x0 y0 : Q) :
  existsb is_shape_or_fill (_drawText cfg text x0 y0) = false.
Proof.
  unfold _drawText. rewrite existsb_app. simpl.
  generalize (Js.split "010" text), 0%nat.
  induction l as [|line l IH]; intros i; simpl; [reflexivity|apply IH].
Qed.

Lemma unknown_sex_no_fill (cfg : Config) (p : Person) (x0 y0 : Q) :
  sex p <> "M" -> sex p <> "F" -> _drawPhenotypeFill cfg p x0 y0 = [].
Proof.
  intros HM HF. unfold _drawPhenotypeFill.
  destruct (phenotypes p) as [phs|]; [|reflexivity].
  destruct (Nat.eqb (List.length phs) 0); [reflexivity|].
  apply String.eqb_neq in HM, HF. rewrite HM, HF. reflexivity.
Qed.

(** C8, as stated, fails: a person of sex ['U'] whose only phenotype has a
    fill colour gets no fill at all, neither alone nor in a whole render
    pass, while the same person with sex ['F'] gets one. *)
Lemma unknown_sex_fill_omitted :
  fill_of (style_of defaults "poi") = Some "#a9a9a9"
  /\ _drawPhenotypeFill defaults stranger 50 50 = []
  /\ existsb is_shape_or_fill (snd (fst (render (fresh [stranger])))) = false
  /\ existsb is_shape_or_fill
       (_drawPhenotypeFill defaults
          (mkPerson "s" "S" "F" (mkPos 0 0) None None (Some ["poi"]) false)
          50 50) = true.
Proof. repeat split; vm_compute; reflexivity. Qed.

(** C8, amended: for a person whose sex is neither ['M'] nor ['F'] the
    render pass omits the shape outline and the phenotype fill; the
    multi-line label is still drawn, by the same calls and at the same
    place as for any other sex. *)
Theorem unknown_sex_outline_and_fill_omitted (cfg : Config)
    (dragId : option string) (p : Person) :
  sex p <> "M" -> sex p <> "F" ->
  let c := _getPixelCoords cfg (x (pos p)) (y (pos p)) in
  existsb is_shape_or_fill (_drawNode_cmds cfg dragId p) = false
  /\ exists before,
       _drawNode_cmds cfg dragId p
       = before ++ _drawText cfg (name p) (x c) (y c + nodeHeight cfg / 2 + 5).
Proof.
  intros HM HF c. split.
  - unfold _drawNode_cmds, outline. rewrite (unknown_sex_no_fill cfg p _ _ HM HF).
    apply String.eqb_neq in HM, HF. rewrite HM, HF.
    rewrite !existsb_app, no_shape_in_text.
    destruct dragId as [t|]; [destruct (String.eqb t (id p))|];
      destruct (phenotypes p) as [phs|];
      try destruct (Nat.ltb 0 (List.length phs));
      destruct (isProband p); reflexivity.
  - unfold _drawNode_cmds. fold c.
    eexists. rewrite !app_assoc. reflexivity.
Qed.

Lemma unknown_sex_outline_and_fill_omitted_witness :
  existsb is_shape_or_fill (_drawNode_cmds defaults None stranger) = false.
Proof.
  exact (proj1 (unknown_sex_outline_and_fill_omitted defaults None stranger
                  ltac:(discriminate) ltac:(discriminate))).
Defined.

(** ** Arrays: [sort], and mutation by index *)

Lemma insert_sorted (s : string) (l : list string) :
  Sorted leb_rel l -> Sorted leb_rel (Js.insert s l).
Proof.
  induction 1 as [|h t St IH Hd]; simpl.
  - repeat constructor.
  - destruct (String.leb s h) eqn:E.
    + constructor; [constructor; assumption|constructor; exact E].
    + constructor; [exact IH|].
      assert (Hhs : leb_rel h s).
      { destruct (String.leb_total s h) as [C|C]; [congruence|exact C]. }
      destruct t as [|h' t']; simpl.
      * constructor; exact Hhs.
      * destruct (String.leb s h'); constructor;
          [exact Hhs|inversion Hd; assumption].
Qed.

Lemma sort_sorted (l : list string) : Sorted leb_rel (Js.sort l).
Proof.
  induction l as [|a l IH]; simpl; [constructor|apply insert_sorted, IH].
Qed.

Lemma sort_of_sorted (l : list string) : Sorted leb_rel l -> Js.sort l = l.
Proof.
  induction 1 as [|h t St IH Hd]; simpl; [reflexivity|].
  rewrite IH. destruct Hd as [|h' t' Hle]; simpl; [reflexivity|].
  unfold leb_rel in Hle. rewrite Hle. reflexivity.
Qed.

Lemma sort_idempotent (l : list string) : Js.sort (Js.sort l) = Js.sort l.
Proof. apply sort_of_sorted, sort_sorted. Qed.

Lemma insert_length (s : string) (l : list string) :
  List.length (Js.insert s l) = S (List.length l).
Proof.
  induction l as [|h t IH]; simpl; [reflexivity|].
  destruct (String.leb s h); simpl; [reflexivity|now rewrite IH].
Qed.

Lemma sort_length (l : list string) : List.length (Js.sort l) = List.length l.
Proof.
  induction l as [|a l IH]; simpl; [reflexivity|].
  now rewrite insert_length, IH.
Qed.

Lemma update_length {A : Type} (f : A -> A) (l : list A) :
  forall i, List.length (Js.update i f l) = List.length l.
Proof.
  induction l as [|a l IH]; intros [|i]; simpl; try reflexivity.
  now rewrite IH.
Qed.

Lemma nth_error_update_eq {A : Type} (f : A -> A) (l : list A) :
  forall i, nth_error (Js.update i f l) i = option_map f (nth_error l i).
Proof.
  induction l as [|a l IH]; intros [|i]; simpl; try reflexivity. apply IH.
Qed.


Lemma update_Forall2 {A : Type} (R : A -> A -> Prop) (f : A -> A) (l : list A) :
  (forall a, R a a) -> (forall a, R a (f a)) ->
  forall i, Forall2 R l (Js.update i f l).
Proof.
  intros Hrefl Hf. induction l as [|a l IH]; intros [|i]; simpl;
    constructor; auto.
  clear IH. induction l; constructor; auto.
Qed.

Lemma update_Forall {A : Type} (P : A -> Prop) (f : A -> A) (l : list A) :
  (forall a, P a -> P (f a)) ->
  forall i, Forall P l -> Forall P (Js.update i f l).
Proof.
  intros Hf. induction l as [|a l IH]; intros [|i] H; simpl;
    inversion H; subst; constructor; auto.
Qed.

Lemma Forall2_nth_error {A : Type} (R : A -> A -> Prop) (l l' : list A) :
  Forall2 R l l' ->
  forall n a, nth_error l n = Some a ->
              exists a', nth_error l' n = Some a' /\ R a a'.
Proof.
  induction 1 as [|b b' l l' Hb _ IH]; intros [|n] a E; simpl in *;
    try discriminate.
  - inversion E; subst. eauto.
  - eauto.
Qed.

Lemma Forall2_trans {A : Type} (R : A -> A -> Prop) :
  (forall a b c, R a b -> R b c -> R a c) ->
  forall l1 l2 l3, Forall2 R l1 l2 -> Forall2 R l2 l3 -> Forall2 R l1 l3.
Proof.
  intros Ht l1 l2 l3 H. revert l3.
  induction H; intros l3 H3; inversion H3; subst; constructor; eauto.
Qed.

Lemma Forall2_refl {A : Type} (R : A -> A -> Prop) :
  (forall a, R a a) -> forall l, Forall2 R l l.
Proof. intros Hr. induction l; constructor; auto. Qed.

(** ** The layout optimizer: what a pass may change *)

Lemma same_but_x_refl (p : Person) : same_but_x p p.
Proof. unfold same_but_x. intuition. Qed.

Lemma same_but_x_trans (p q r : Person) :
  same_but_x p q -> same_but_x q r -> same_but_x p r.
Proof.
  unfold same_but_x.
  intros (A1 & A2 & A3 & A4 & A5 & A6 & A7 & A8)
         (B1 & B2 & B3 & B4 & B5 & B6 & B7 & B8).
  repeat split; try congruence.
  destruct A8 as [A8|A8], B8 as [B8|B8]; rewrite B8, A8; auto.
  right. destruct (parents p); simpl; [|reflexivity].
  now rewrite sort_idempotent.
Qed.

Lemma same_but_x_sort_parents (p : Person) : same_but_x p (sort_parents p).
Proof. unfold same_but_x; simpl. intuition. Qed.

Lemma same_but_x_set_pos_x (v : Q) (p : Person) : same_but_x p (set_pos_x v p).
Proof. unfold same_but_x; simpl. intuition. Qed.

Lemma frame_refl (d : list Person) : frame d d.
Proof. apply Forall2_refl, same_but_x_refl. Qed.

Lemma frame_trans (d1 d2 d3 : list Person) :
  frame d1 d2 -> frame d2 d3 -> frame d1 d3.
Proof. apply Forall2_trans, same_but_x_trans. Qed.

Lemma frame_update (f : Person -> Person) (d : list Person) (i : nat) :
  (forall p, same_but_x p (f p)) -> frame d (Js.update i f d).
Proof. intros H. apply update_Forall2; [apply same_but_x_refl|exact H]. Qed.

Lemma frame_swap_x (i k : nat) (d : list Person) : frame d (swap_x i k d).
Proof.
  unfold swap_x.
  destruct (nth_error d i), (nth_error d k); try apply frame_refl.
  eapply frame_trans; apply frame_update; intros; apply same_but_x_set_pos_x.
Qed.

Lemma frame_obstacle_step (i j : nat) (lo hi : Q) (d : list Person) (k : nat) :
  frame d (obstacle_step i j lo hi d k).
Proof.
  unfold obstacle_step.
  destruct (nth_error d i) as [p|], (nth_error d j) as [q|],
           (nth_error d k) as [r|]; try apply frame_refl.
  destruct (isObstacle p q r lo hi); [|apply frame_refl].
  assert (F : frame d (Js.update k sort_parents (Js.update i sort_parents d))).
  { eapply frame_trans; apply frame_update; intros;
      apply same_but_x_sort_parents. }
  destruct (areSiblings p r); [|exact F].
  eapply frame_trans; [exact F|apply frame_swap_x].
Qed.

Lemma frame_fold {A : Type} (f : list Person -> A -> list Person) (l : list A) :
  (forall d a, frame d (f d a)) -> forall d, frame d (fold_left f l d).
Proof.
  intros Hf. induction l as [|a l IH]; intros d; simpl; [apply frame_refl|].
  eapply frame_trans; [apply Hf|apply IH].
Qed.

Lemma frame_optimize_person (d : list Person) (i : nat) :
  frame d (optimize_person d i).
Proof.
  unfold optimize_person.
  destruct (nth_error d i) as [p|]; [|apply frame_refl].
  destruct (mate p) as [m|]; [|apply frame_refl].
  destruct (Js.truthy m); [|apply frame_refl].
  destruct (Js.find_index _ d) as [j|]; [|apply frame_refl].
  destruct (nth_error d j) as [q|]; [|apply frame_refl].
  apply frame_fold. intros; apply frame_obstacle_step.
Qed.

Lemma frame_optimizeLayout (cfg : Config) (d : list Person) :
  frame d (_optimizeLayout cfg d).
Proof.
  unfold _optimizeLayout. destruct (autoLayoutOptimize cfg); [|apply frame_refl].
  apply frame_fold. intros; apply frame_optimize_person.
Qed.

Lemma frame_sortGrouped (d : list Person) : frame d (sortGrouped d).
Proof.
  unfold sortGrouped. induction d as [|p d IH]; simpl; constructor; [|exact IH].
  destruct (hasTwoParents p);
    [apply same_but_x_sort_parents|apply same_but_x_refl].
Qed.

Lemma map_pos_update (f : Person -> Person) (d : list Person) :
  (forall p, pos (f p) = pos p) ->
  forall i, map pos (Js.update i f d) = map pos d.
Proof.
  intros Hf. induction d as [|p d IH]; intros [|i]; simpl; try reflexivity.
  - now rewrite Hf.
  - now rewrite IH.
Qed.




(** ** C3: what the optimizer swaps *)




(** ** The state a render pass leaves *)

Lemma render_state (s : State) :
  fst (fst (render s))
  = set_nodeCoords
      (fst (drawNodes (config s)
              (dragTargetId (_optimizeLayout (config s) (data s)) (dragTarget s))
              (_optimizeLayout (config s) (data s)) (nodeCoords s)))
      (set_data (sortGrouped (_optimizeLayout (config s) (data s))) s).
Proof.
  unfold render. destruct (drawNodes _ _ _ _) as [nc nodes].
  unfold _drawConnections. destruct (drawSibships _ _ _ _). reflexivity.
Qed.

Lemma render_data (s : State) :
  data (fst (fst (render s)))
  = sortGrouped (_optimizeLayout (config s) (data s)).
Proof. rewrite render_state. reflexivity. Qed.

Lemma frame_render (s : State) : frame (data s) (data (fst (fst (render s)))).
Proof.
  rewrite render_data.
  eapply frame_trans; [apply frame_optimizeLayout|apply frame_sortGrouped].
Qed.

(** ** Non-negative positions *)

Lemma nonneg_sort_parents (p : Person) : nonneg p -> nonneg (sort_parents p).
Proof. auto. Qed.

Lemma nonneg_set_pos_x (v : Q) (p : Person) :
  0 <= v -> nonneg p -> nonneg (set_pos_x v p).
Proof. unfold nonneg; simpl; tauto. Qed.

Lemma nonneg_nth (d : list Person) (i : nat) (p : Person) :
  Forall nonneg d -> nth_error d i = Some p -> nonneg p.
Proof.
  intros H E. rewrite Forall_forall in H. apply H.
  eapply nth_error_In; exact E.
Qed.

Lemma nonneg_swap_x (i k : nat) (d : list Person) :
  Forall nonneg d -> Forall nonneg (swap_x i k d).
Proof.
  intros H. unfold swap_x.
  destruct (nth_error d i) as [p|] eqn:Ei; [|exact H].
  destruct (nth_error d k) as [r|] eqn:Ek; [|exact H].
  apply update_Forall;
    [intros; apply nonneg_set_pos_x; [apply (nonneg_nth d i p H Ei)|assumption]|].
  apply update_Forall; [|exact H].
  intros; apply nonneg_set_pos_x; [apply (nonneg_nth d k r H Ek)|assumption].
Qed.

Lemma nonneg_obstacle_step (i j : nat) (lo hi : Q) (d : list Person) (k : nat) :
  Forall nonneg d -> Forall nonneg (obstacle_step i j lo hi d k).
Proof.
  intros H. unfold obstacle_step.
  destruct (nth_error d i) as [p|], (nth_error d j) as [q|],
           (nth_error d k) as [r|]; try exact H.
  destruct (isObstacle p q r lo hi); [|exact H].
  assert (F : Forall nonneg
                (Js.update k sort_parents (Js.update i sort_parents d))).
  { repeat apply update_Forall; auto using nonneg_sort_parents. }
  destruct (areSiblings p r); [apply nonneg_swap_x|]; exact F.
Qed.

Lemma Forall_fold {A : Type} (P : Person -> Prop)
    (f : list Person -> A -> list Person) (l : list A) :
  (forall d a, Forall P d -> Forall P (f d a)) ->
  forall d, Forall P d -> Forall P (fold_left f l d).
Proof.
  intros Hf. induction l as [|a l IH]; intros d H; simpl; auto.
Qed.

Lemma nonneg_optimizeLayout (cfg : Config) (d : list Person) :
  Forall nonneg d -> Forall nonneg (_optimizeLayout cfg d).
Proof.
  intros H. unfold _optimizeLayout.
  destruct (autoLayoutOptimize cfg); [|exact H].
  apply Forall_fold; [|exact H]. clear. intros d i H.
  unfold optimize_person.
  destruct (nth_error d i) as [p|]; [|exact H].
  destruct (mate p) as [m|]; [|exact H].
  destruct (Js.truthy m); [|exact H].
  destruct (Js.find_index _ d) as [j|]; [|exact H].
  destruct (nth_error d j) as [q|]; [|exact H].
  apply Forall_fold; [|exact H].
  intros; apply nonneg_obstacle_step; assumption.
Qed.

Lemma nonneg_sortGrouped (d : list Person) :
  Forall nonneg d -> Forall nonneg (sortGrouped d).
Proof.
  unfold sortGrouped. induction 1 as [|p d Hp _ IH]; simpl; constructor;
    [|exact IH].
  destruct (hasTwoParents p); auto using nonneg_sort_parents.
Qed.

Lemma nonneg_render (s : State) :
  Forall nonneg (data s) -> Forall nonneg (data (fst (fst (render s)))).
Proof.
  intros H. rewrite render_data.
  apply nonneg_sortGrouped, nonneg_optimizeLayout, H.
Qed.

Lemma pixelToGrid_nonneg (cfg : Config) (px py : Q) :
  0 <= x (pixelToGrid cfg px py) /\ 0 <= y (pixelToGrid cfg px py).
Proof. unfold pixelToGrid; simpl. split; apply Q.le_max_l. Qed.

Lemma nth_error_sortGrouped (d : list Person) (i : nat) (p : Person) :
  nth_error d i = Some p ->
  exists p', nth_error (sortGrouped d) i = Some p' /\ pos p' = pos p.
Proof.
  intros E. unfold sortGrouped.
  rewrite nth_error_map, E. simpl. eexists; split; [reflexivity|].
  destruct (hasTwoParents p); reflexivity.
Qed.

(** ** C6: a pointer move during a drag *)

(** C6, as stated, fails twice.  A person whose position in the dataset
    is left of the origin stays there when somebody else is dragged (here
    A, pressed and moved at its own place); and the dragged person (here
    P, pressed at its place and moved to the pixel of the grid cell
    (0, 0)) ends the event at x = 1 when the optimizer of the re-render
    exchanges it with a sibling. *)
Lemma drag_does_not_clamp_everyone :
  map pos (data (fst (fst (_handleMouseMove (dragging leftward (mkPos 50 50))
                                            (mkPos 50 50)))))
  = [mkPos 0 0; mkPos (-1) 0]
  /\ ~ Forall nonneg (data (fst (fst (_handleMouseMove (dragging leftward (mkPos 50 50))
                                                       (mkPos 50 50)))))
  /\ pixelToGrid defaults 50 50 = mkPos 0 0
  /\ map pos (data (fst (fst (_handleMouseMove (dragging beside (mkPos 250 50))
                                               (mkPos 50 50)))))
     = [mkPos 1 0; mkPos 3 0; mkPos 0 0].
Proof.
  split; [vm_compute; reflexivity|]. split.
  - intros H. rewrite Forall_forall in H.
    assert (N : nonneg (person "B" "F" (-1) 0 None None)).
    { apply H. vm_compute. right; left; reflexivity. }
    destruct N as [N _]. vm_compute in N. apply N; reflexivity.
  - split; vm_compute; reflexivity.
Qed.

(** C6, amended: on a pointer move during the drag of a person of the
    working copy, with non-zero spacings, the handler assigns
    (max(gx,0), max(gy,0)) to the dragged person's grid position, (gx, gy)
    being the pointer position minus the drag offset converted by the
    inverse transform with rounding, and re-renders.  After the event the
    dragged person's y is max(gy,0), and its whole position is
    (max(gx,0), max(gy,0)) when the optimizer is off; and if both grid
    coordinates of every person were non-negative before the event, they
    are non-negative after it. *)
Theorem drag_move_clamps (s : State) (mousePos : Pos) (i : nat) (p : Person) :
  isDragging s = true -> dragTarget s = Some (Live i) ->
  nth_error (data s) i = Some p ->
  ~ hSpacing (config s) == 0 -> ~ vSpacing (config s) == 0 ->
  let gx := Js.Math_round ((x mousePos - x (dragOffset s)
                            - padding_left (padding (config s)))
                           / hSpacing (config s)) in
  let gy := Js.Math_round ((y mousePos - y (dragOffset s)
                            - padding_top (padding (config s)))
                           / vSpacing (config s)) in
  let g := mkPos (Qmax 0 gx) (Qmax 0 gy) in
  let s' := fst (fst (_handleMouseMove s mousePos)) in
  _handleMouseMove s mousePos
  = render (set_data (Js.update i (set_pos g) (data s))
                     (set_lastMousePos mousePos s))
  /\ 0 <= x g /\ 0 <= y g
  /\ (exists p', nth_error (data s') i = Some p'
                 /\ y (pos p') = y g
                 /\ (autoLayoutOptimize (config s) = false -> pos p' = g))
  /\ (Forall nonneg (data s) -> Forall nonneg (data s')).
Proof.
  intros Hd Ht Hp _ _ gx gy g s'.
  assert (E : _handleMouseMove s mousePos
              = render (set_data (Js.update i (set_pos g) (data s))
                                 (set_lastMousePos mousePos s))).
  { unfold _handleMouseMove. simpl. rewrite Hd, Ht. reflexivity. }
  assert (Ei : nth_error (Js.update i (set_pos g) (data s)) i
               = Some (set_pos g p)).
  { rewrite nth_error_update_eq, Hp. reflexivity. }
  split; [exact E|].
  split; [apply Q.le_max_l|]. split; [apply Q.le_max_l|]. split.
  - unfold s'. rewrite E.
    destruct (Forall2_nth_error _ _ _
                (frame_render (set_data (Js.update i (set_pos g) (data s))
                                        (set_lastMousePos mousePos s)))
                i (set_pos g p) Ei)
      as (p' & Ep' & F).
    exists p'. split; [exact Ep'|]. split; [apply F|].
    intros Hoff. rewrite render_data in Ep'. simpl in Ep'.
    unfold _optimizeLayout in Ep'. rewrite Hoff in Ep'.
    destruct (nth_error_sortGrouped _ _ _ Ei) as (p'' & Ep'' & Hpos).
    rewrite Ep'' in Ep'. inversion Ep'; subst. exact Hpos.
  - intros Hn. unfold s'. rewrite E. apply nonneg_render. simpl.
    apply update_Forall; [|exact Hn].
    intros a _. split; simpl; apply Q.le_max_l.
Qed.

Lemma drag_move_clamps_witness :
  Forall nonneg (data (fst (fst (_handleMouseMove (dragging beside (mkPos 250 50))
                                                  (mkPos (-70) 50))))).
Proof.
  refine (proj2 (proj2 (proj2 (proj2
            (drag_move_clamps (dragging beside (mkPos 250 50)) (mkPos (-70) 50) 0
               (person "P" "M" 2 0 (Some "Q") (Some ["a"; "b"]))
               _ _ _ _ _)))) _).
  - vm_compute; reflexivity.
  - vm_compute; reflexivity.
  - vm_compute; reflexivity.
  - vm_compute; discriminate.
  - vm_compute; discriminate.
  - repeat constructor; vm_compute; discriminate.
Defined.

(** ** The second loop of the connection router *)

Lemma existsb_eqb_In (k : string) (l : list string) :
  existsb (String.eqb k) l = true <-> In k l.
Proof.
  rewrite existsb_exists. split.
  - intros (k' & Hin & E). apply String.eqb_eq in E. now subst.
  - intros H. exists k. split; [exact H|apply String.eqb_refl].
Qed.

Lemma partnership_step_emit (cfg : Config) (nc : list (string * Pos))
    (ch : list (string * list string)) (acc : list string * list cmd)
    (p : Person) :
  partnership_step cfg nc ch acc p
  = match partnership_emit cfg nc ch (fst acc) p with
    | Some (k, c) => (fst acc ++ [k], snd acc ++ c)
    | None => acc
    end.
Proof.
  unfold partnership_step, partnership_emit.
  destruct (mate p) as [m|]; [|reflexivity].
  destruct (Js.truthy m); [|reflexivity].
  destruct (existsb _ (fst acc)); [reflexivity|].
  destruct (Js.get (id p) nc) as [p1|]; [|reflexivity].
  destruct (Js.get m nc) as [p2|]; reflexivity.
Qed.

Lemma partnershipLog_sound (cfg : Config) (nc : list (string * Pos))
    (ch : list (string * list string)) (d : list Person) :
  forall acc,
    fold_left (partnership_step cfg nc ch) d acc
    = (fst acc ++ map fst (partnershipLog cfg nc ch (fst acc) d),
       snd acc ++ List.concat (map snd (partnershipLog cfg nc ch (fst acc) d))).
Proof.
  induction d as [|p d IH]; intros [drawn out]; simpl.
  - now rewrite !app_nil_r.
  - rewrite partnership_step_emit. simpl.
    destruct (partnership_emit cfg nc ch drawn p) as [[k c]|]; rewrite IH; simpl.
    + now rewrite <- !app_assoc.
    + reflexivity.
Qed.

Lemma drawPartnerships_log (cfg : Config) (nc : list (string * Pos))
    (ch : list (string * list string)) (d : list Person) :
  drawPartnerships cfg nc ch d
  = (map fst (partnershipLog cfg nc ch [] d),
     List.concat (map snd (partnershipLog cfg nc ch [] d))).
Proof. unfold drawPartnerships. now rewrite partnershipLog_sound. Qed.

Lemma partnership_emit_inv (cfg : Config) (nc : list (string * Pos))
    (ch : list (string * list string)) (drawn : list string) (p : Person)
    (k : string) (c : list cmd) :
  partnership_emit cfg nc ch drawn p = Some (k, c) ->
  ~ In k drawn
  /\ exists m p1 p2,
       mate p = Some m /\ Js.truthy m = true
       /\ k = partnershipKey (id p) m
       /\ Js.get (id p) nc = Some p1 /\ Js.get m nc = Some p2
       /\ c = partnershipLine cfg p1 p2
              ++ match Js.get k ch with
                 | Some _ => dropLine cfg p1 p2
                 | None => []
                 end.
Proof.
  unfold partnership_emit.
  destruct (mate p) as [m|]; [|discriminate].
  destruct (Js.truthy m) eqn:T; [|discriminate].
  destruct (existsb _ drawn) eqn:D; [discriminate|].
  destruct (Js.get (id p) nc) as [p1|] eqn:G1; [|discriminate].
  destruct (Js.get m nc) as [p2|] eqn:G2; [|discriminate].
  intros E. inversion E; subst. split.
  - intros Hin. apply existsb_eqb_In in Hin. congruence.
  - exists m, p1, p2. repeat split; assumption.
Qed.

Lemma partnership_emit_some (cfg : Config) (nc : list (string * Pos))
    (ch : list (string * list string)) (drawn : list string) (p : Person)
    (m : string) (p1 p2 : Pos) :
  mate p = Some m -> Js.truthy m = true ->
  Js.get (id p) nc = Some p1 -> Js.get m nc = Some p2 ->
  ~ In (partnershipKey (id p) m) drawn ->
  exists c, partnership_emit cfg nc ch drawn p
            = Some (partnershipKey (id p) m, c).
Proof.
  intros Hm Ht G1 G2 Hn. unfold partnership_emit. rewrite Hm, Ht, G1, G2.
  destruct (existsb _ drawn) eqn:D.
  - apply existsb_eqb_In in D. contradiction.
  - eexists; reflexivity.
Qed.

Lemma partnershipLog_entries (cfg : Config) (nc : list (string * Pos))
    (ch : list (string * list string)) (d : list Person) :
  forall drawn k c,
    In (k, c) (partnershipLog cfg nc ch drawn d) ->
    ~ In k drawn
    /\ exists p m p1 p2,
         In p d /\ mate p = Some m /\ Js.truthy m = true
         /\ k = partnershipKey (id p) m
         /\ Js.get (id p) nc = Some p1 /\ Js.get m nc = Some p2
         /\ c = partnershipLine cfg p1 p2
                ++ match Js.get k ch with
                   | Some _ => dropLine cfg p1 p2
                   | None => []
                   end.
Proof.
  induction d as [|p d IH]; intros drawn k c Hin; simpl in Hin; [contradiction|].
  destruct (partnership_emit cfg nc ch drawn p) as [[k' c']|] eqn:E.
  - destruct Hin as [Hin|Hin].
    + inversion Hin; subst.
      destruct (partnership_emit_inv _ _ _ _ _ _ _ E)
        as (Hn & m & p1 & p2 & H).
      split; [exact Hn|]. exists p, m, p1, p2. split; [left; reflexivity|exact H].
    + destruct (IH _ _ _ Hin) as (Hn & q & m & p1 & p2 & Hq & H).
      split; [intros Hd; apply Hn, in_or_app; left; exact Hd|].
      exists q, m, p1, p2. split; [right; exact Hq|exact H].
  - destruct (IH _ _ _ Hin) as (Hn & q & m & p1 & p2 & Hq & H).
    split; [exact Hn|]. exists q, m, p1, p2. split; [right; exact Hq|exact H].
Qed.

Lemma partnershipLog_nodup (cfg : Config) (nc : list (string * Pos))
    (ch : list (string * list string)) (d : list Person) :
  forall drawn, NoDup (map fst (partnershipLog cfg nc ch drawn d)).
Proof.
  induction d as [|p d IH]; intros drawn; simpl; [constructor|].
  destruct (partnership_emit cfg nc ch drawn p) as [[k c]|]; [|apply IH].
  simpl. constructor; [|apply IH].
  intros Hin. apply in_map_iff in Hin. destruct Hin as ([k' c'] & Hk & Hin).
  simpl in Hk; subst k'.
  destruct (partnershipLog_entries _ _ _ _ _ _ _ Hin) as [Hn _].
  apply Hn, in_or_app. right; left; reflexivity.
Qed.

Lemma partnershipLog_complete (cfg : Config) (nc : list (string * Pos))
    (ch : list (string * list string)) (d : list Person) :
  forall drawn p m p1 p2,
    In p d -> mate p = Some m -> Js.truthy m = true ->
    Js.get (id p) nc = Some p1 -> Js.get m nc = Some p2 ->
    ~ In (partnershipKey (id p) m) drawn ->
    In (partnershipKey (id p) m)
       (map fst (partnershipLog cfg nc ch drawn d)).
Proof.
  induction d as [|q d IH]; intros drawn p m p1 p2 Hin Hm Ht G1 G2 Hn;
    [contradiction|].
  simpl. destruct Hin as [->|Hin].
  - destruct (partnership_emit_some cfg nc ch drawn p m p1 p2 Hm Ht G1 G2 Hn)
      as [c E].
    rewrite E. left; reflexivity.
  - destruct (partnership_emit cfg nc ch drawn q) as [[k c]|] eqn:E.
    + simpl. destruct (string_dec k (partnershipKey (id p) m)) as [->|Hk];
        [left; reflexivity|right].
      apply (IH _ p m p1 p2); try assumption.
      intros Hd. apply in_app_or in Hd. destruct Hd as [Hd|[Hd|[]]]; auto.
    + apply (IH _ p m p1 p2); assumption.
Qed.

Lemma split_at_key {A : Type} (k : string) (l : list (string * A)) :
  In k (map fst l) -> NoDup (map fst l) ->
  exists before c after,
    l = before ++ (k, c) :: after
    /\ ~ In k (map fst before) /\ ~ In k (map fst after).
Proof.
  induction l as [|[k' c'] l IH]; simpl; intros Hin Hnd; [contradiction|].
  inversion Hnd as [|? ? Hk' Hnd']; subst.
  destruct (string_dec k' k) as [->|Hne].
  - exists [], c', l. simpl. repeat split; auto.
  - destruct Hin as [Hin|Hin]; [contradiction|].
    destruct (IH Hin Hnd') as (before & c & after & E & H1 & H2).
    exists ((k', c') :: before), c, after. subst l. simpl.
    repeat split; auto.
    intros [Hd|Hd]; [contradiction|auto].
Qed.

Lemma partnershipLine_shape (cfg : Config) (p1 p2 : Pos) :
  exists l r,
    ((l = p1 /\ r = p2) \/ (l = p2 /\ r = p1)) /\ x l <= x r
    /\ partnershipLine cfg p1 p2
       = [BeginPath; MoveTo (x l + nodeWidth cfg / 2) (y l);
          LineTo (x r - nodeWidth cfg / 2) (y r); Stroke].
Proof.
  unfold partnershipLine, Js.ltb.
  destruct (Qle_bool (x p2) (x p1)) eqn:E; simpl.
  - exists p2, p1. apply Qle_bool_iff in E. auto.
  - exists p1, p2. repeat split; auto.
    destruct (Qlt_le_dec (x p2) (x p1)) as [L|L]; [|exact L].
    apply Qlt_le_weak in L. apply Qle_bool_iff in L. congruence.
Qed.

(** ** Keys of ids without "-" *)

Lemma split_no_hyphen (s : string) :
  no_hyphen s = true -> Js.split "-" s = [s].
Proof.
  induction s as [|c r IH]; simpl; [reflexivity|].
  intros H. apply andb_true_iff in H. destruct H as [Hc Hr].
  apply negb_true_iff in Hc. rewrite Hc, (IH Hr). reflexivity.
Qed.

Lemma split_join (a b : string) :
  no_hyphen a = true -> no_hyphen b = true ->
  Js.split "-" (Js.join "-" [a; b]) = [a; b].
Proof.
  intros Ha Hb. simpl. induction a as [|c r IH]; simpl.
  - now rewrite (split_no_hyphen b Hb).
  - simpl in Ha. apply andb_true_iff in Ha. destruct Ha as [Hc Hr].
    apply negb_true_iff in Hc. rewrite Hc, (IH Hr). reflexivity.
Qed.

Lemma sort_pair (a b : string) :
  Js.sort [a; b] = [a; b] \/ Js.sort [a; b] = [b; a].
Proof. simpl. destruct (String.leb a b); auto. Qed.

(** When no id contains "-", two [mate] references with the same key join
    the same two ids. *)
Lemma partnershipKey_inj (a b a' b' : string) :
  no_hyphen a = true -> no_hyphen b = true ->
  no_hyphen a' = true -> no_hyphen b' = true ->
  partnershipKey a' b' = partnershipKey a b ->
  (a' = a /\ b' = b) \/ (a' = b /\ b' = a).
Proof.
  intros Ha Hb Ha' Hb' E. unfold partnershipKey in E.
  apply (f_equal (Js.split "-")) in E.
  destruct (sort_pair a b) as [S|S], (sort_pair a' b') as [S'|S'];
    rewrite S, S' in E; rewrite !split_join in E by assumption;
    inversion E; auto.
Qed.

(** ** C5: one partnership line per pair *)

(** C5, as stated, fails twice.  The couples {a-b, c} and {a, b-c} have
    the same key "a-b-c", so with all four persons resolved the render pass
    draws the line of the first couple and none for the second.  And the
    line of a couple standing on two rows joins (75, 50) to (125, 170): it
    is not horizontal. *)
Lemma partnership_key_collision :
  let s := fst (fst (render (fresh hyphenated))) in
  let out := snd (fst (render (fresh hyphenated))) in
  Js.get "a" (nodeCoords s) = Some (mkPos 50 170)
  /\ Js.get "b-c" (nodeCoords s) = Some (mkPos 150 170)
  /\ partnershipKey "a" "b-c" = partnershipKey "a-b" "c"
  /\ has_segment out 75 50 125 50 = true
  /\ has_segment out 75 170 125 170 = false
  /\ has_segment (snd (fst (render (fresh slanted)))) 75 50 125 170 = true.
Proof. repeat split; vm_compute; reflexivity. Qed.

(** C5, amended: let a and b be the ids of a pair linked by a [mate]
    reference of some person of the dataset, in either or both
    directions, and let no other [mate] reference of the dataset give the
    same key (the two ids sorted and joined by "-"), as is the case when
    no id contains "-".  Then, if a and b both have an entry in the
    Coordinate Index, exactly one iteration of the loop draws for that
    key, and it draws the segment from the right edge of the node with the
    smaller x to the left edge of the other, each end at the height of its
    node; if a or b has no entry, no iteration draws for that key.  The
    calls of the loop are those of the iterations that draw, in order. *)
Theorem partnership_line_once (cfg : Config) (nc : list (string * Pos))
    (ch : list (string * list string)) (d : list Person) (a b : string) :
  (exists p m, In p d /\ mate p = Some m /\ Js.truthy m = true
               /\ linked p m a b) ->
  (forall p m, In p d -> mate p = Some m -> Js.truthy m = true ->
               partnershipKey (id p) m = partnershipKey a b ->
               linked p m a b)
  \/ (no_hyphen a = true /\ no_hyphen b = true
      /\ forall p m, In p d -> mate p = Some m ->
                     no_hyphen (id p) = true /\ no_hyphen m = true) ->
  let log := partnershipLog cfg nc ch [] d in
  let key := partnershipKey a b in
  drawPartnerships cfg nc ch d = (map fst log, List.concat (map snd log))
  /\ (forall pa pb,
        Js.get a nc = Some pa -> Js.get b nc = Some pb ->
        exists l r rest before after,
          ((l = pa /\ r = pb) \/ (l = pb /\ r = pa)) /\ x l <= x r
          /\ log = before
                   ++ (key, [BeginPath;
                             MoveTo (x l + nodeWidth cfg / 2) (y l);
                             LineTo (x r - nodeWidth cfg / 2) (y r);
                             Stroke] ++ rest) :: after
          /\ ~ In key (map fst before) /\ ~ In key (map fst after))
  /\ (Js.get a nc = None \/ Js.get b nc = None -> ~ In key (map fst log)).
Proof.
  intros (p & m & Hp & Hm & Ht & Hl) Hinj' log key.
  assert (Hinj : forall p m, In p d -> mate p = Some m ->
                             Js.truthy m = true ->
                             partnershipKey (id p) m = partnershipKey a b ->
                             linked p m a b).
  { destruct Hinj' as [H|(Ha & Hb & Hall)]; [exact H|].
    intros q mq Hq Hmq _ E. destruct (Hall q mq Hq Hmq) as [Hq1 Hq2].
    exact (partnershipKey_inj a b (id q) mq Ha Hb Hq1 Hq2 E). }
  assert (Hkey : partnershipKey (id p) m = key).
  { unfold key, partnershipKey. destruct Hl as [[-> ->]|[-> ->]];
      [reflexivity|]. simpl.
    destruct (String.leb b a) eqn:E1, (String.leb a b) eqn:E2; try reflexivity.
    - rewrite (String.leb_antisym _ _ E1 E2). reflexivity.
    - destruct (String.leb_total a b); congruence. }
  split; [apply drawPartnerships_log|]. split.
  - intros pa pb Ga Gb.
    assert (Hin : In key (map fst log)).
    { rewrite <- Hkey.
      destruct Hl as [[Ea Eb]|[Ea Eb]]; subst.
      - apply (partnershipLog_complete cfg nc ch d [] p _ pa pb); auto.
      - apply (partnershipLog_complete cfg nc ch d [] p _ pb pa); auto. }
    destruct (split_at_key key log Hin (partnershipLog_nodup cfg nc ch d []))
      as (before & c & after & E & H1 & H2).
    assert (Hc : In (key, c) log) by (rewrite E; apply in_elt).
    destruct (partnershipLog_entries cfg nc ch d [] key c Hc)
      as (_ & q & mq & p1 & p2 & Hq & Hmq & Htq & Hk & G1 & G2 & Ec).
    destruct (partnershipLine_shape cfg p1 p2) as (l & r & Hlr & Hle & Eline).
    assert (Hpair : (p1 = pa /\ p2 = pb) \/ (p1 = pb /\ p2 = pa)).
    { destruct (Hinj q mq Hq Hmq Htq (eq_sym Hk)) as [[E1 E2]|[E1 E2]];
        subst; [left|right]; split; congruence. }
    exists l, r, (match Js.get key ch with
                  | Some _ => dropLine cfg p1 p2
                  | None => []
                  end), before, after.
    split; [|split; [exact Hle|split; [|split; assumption]]].
    + destruct Hlr as [[-> ->]|[-> ->]], Hpair as [[-> ->]|[-> ->]]; auto.
    + rewrite E, Ec, Eline. reflexivity.
  - intros Hnone Hin. apply in_map_iff in Hin.
    destruct Hin as ([k c] & Hk & Hin). simpl in Hk; subst k.
    destruct (partnershipLog_entries cfg nc ch d [] key c Hin)
      as (_ & q & mq & p1 & p2 & Hq & Hmq & Htq & Hk & G1 & G2 & _).
    destruct (Hinj q mq Hq Hmq Htq (eq_sym Hk)) as [[E1 E2]|[E1 E2]];
      subst; destruct Hnone; congruence.
Qed.

Lemma partnership_line_once_witness :
  ~ In (partnershipKey "A" "B")
       (map fst (partnershipLog defaults [("A", mkPos 50 50)] [] [] family)).
Proof.
  refine (proj2 (proj2 (partnership_line_once defaults [("A", mkPos 50 50)] []
                          family "A" "B" _ _)) _).
  - exists (person "B" "F" 1 0 (Some "A") None), "A".
    repeat split; [right; left; reflexivity|right; split; reflexivity].
  - right. split; [reflexivity|]. split; [reflexivity|].
    intros p m Hin Hm.
    destruct Hin as [<-|[<-|[<-|[]]]]; simpl in Hm; try discriminate.
    inversion Hm; split; reflexivity.
  - right; reflexivity.
Defined.

(** ** C7: the sibship drop line *)

Lemma get_set {V : Type} (k k' : string) (v : V) (o : list (string * V)) :
  Js.get k (Js.set k' v o) = if String.eqb k k' then Some v else Js.get k o.
Proof.
  induction o as [|[k0 v0] o IH]; simpl.
  - destruct (String.eqb k k'); reflexivity.
  - destruct (String.eqb k' k0) eqn:E0; simpl.
    + apply String.eqb_eq in E0; subst k0.
      destruct (String.eqb k k'); reflexivity.
    + rewrite IH. destruct (String.eqb k k0) eqn:E1; [|reflexivity].
      apply String.eqb_eq in E1; subst k0.
      rewrite String.eqb_sym, E0. reflexivity.
Qed.

Lemma get_addChild (k : string) (ch : list (string * list string)) (p : Person) :
  (Js.get k (addChild ch p) <> None)
  <-> (Js.get k ch <> None
       \/ hasTwoParents p && String.eqb (parentKey p) k = true).
Proof.
  unfold addChild. destruct (hasTwoParents p); simpl; [|intuition congruence].
  rewrite (String.eqb_sym (parentKey p) k).
  destruct (Js.get (parentKey p) ch); rewrite get_set;
    destruct (String.eqb k (parentKey p)); intuition congruence.
Qed.

Lemma get_groupChildren (k : string) (d : list Person) :
  forall ch,
    (Js.get k (fold_left addChild d ch) <> None)
    <-> (Js.get k ch <> None \/ has_children k d = true).
Proof.
  unfold has_children.
  induction d as [|p d IH]; intros ch; simpl; [intuition congruence|].
  rewrite IH, get_addChild, orb_true_iff. tauto.
Qed.







(** ** The Coordinate Index is stable under a second pass *)

Lemma setAll_head {V : Type} (l : list (string * V)) :
  forall k0 v0 t,
    setAll l ((k0, v0) :: t)
    = (k0, lastval k0 v0 l) :: setAll (others k0 l) t.
Proof.
  induction l as [|[k v] l IH]; intros k0 v0 t; [reflexivity|].
  unfold setAll, lastval, others in *. simpl.
  destruct (String.eqb k k0) eqn:E; simpl.
  - apply String.eqb_eq in E; subst k0. apply IH.
  - apply IH.
Qed.

Lemma lastval_twice {V : Type} (k : string) (l : list (string * V)) :
  forall v, lastval k (lastval k v l) l = lastval k v l.
Proof.
  induction l as [|[k' v'] l IH] using rev_ind; intros v; [reflexivity|].
  unfold lastval in *. rewrite !fold_left_app. simpl.
  destruct (String.eqb k' k); [reflexivity|apply IH].
Qed.

Lemma others_length {V : Type} (k : string) (l : list (string * V)) :
  (List.length (others k l) <= List.length l)%nat.
Proof. apply filter_length_le. Qed.

Lemma setAll_twice_nil {V : Type} (n : nat) :
  forall l : list (string * V),
    (List.length l <= n)%nat -> setAll l (setAll l []) = setAll l [].
Proof.
  induction n as [|n IH]; intros [|[k v] l] Hn; try reflexivity.
  - simpl in Hn. lia.
  - assert (E : setAll ((k, v) :: l) []
                = (k, lastval k v l) :: setAll (others k l) []).
    { change (setAll ((k, v) :: l) []) with (setAll l [(k, v)]).
      apply setAll_head. }
    rewrite E, setAll_head. f_equal.
    + unfold lastval at 1. simpl. rewrite String.eqb_refl.
      change (fold_left _ l v) with (lastval k v l). reflexivity.
    + unfold others at 1. simpl. rewrite String.eqb_refl. simpl.
      apply IH. pose proof (others_length k l). simpl in Hn. lia.
Qed.

Lemma setAll_twice {V : Type} (o : list (string * V)) :
  forall l, setAll l (setAll l o) = setAll l o.
Proof.
  induction o as [|[k0 v0] o IH]; intros l.
  - apply (setAll_twice_nil (List.length l)). apply le_n.
  - rewrite !setAll_head, lastval_twice, IH. reflexivity.
Qed.

Lemma drawNodes_fold (cfg : Config) (t : option string) (d : list Person) :
  forall nc out,
    fold_left (_drawNode cfg t) d (nc, out)
    = (setAll (coordsOf cfg d) nc, out ++ flat_map (_drawNode_cmds cfg t) d).
Proof.
  induction d as [|p d IH]; intros nc out; simpl.
  - now rewrite app_nil_r.
  - unfold _drawNode at 2. simpl. rewrite IH, <- app_assoc. reflexivity.
Qed.

Lemma drawNodes_spec (cfg : Config) (t : option string) (d : list Person)
    (nc : list (string * Pos)) :
  drawNodes cfg t d nc
  = (setAll (coordsOf cfg d) nc, flat_map (_drawNode_cmds cfg t) d).
Proof. unfold drawNodes. now rewrite drawNodes_fold. Qed.

(** ** Sorting [parents] arrays changes nothing that is drawn *)

Lemma coordsOf_sortGrouped (cfg : Config) (d : list Person) :
  coordsOf cfg (sortGrouped d) = coordsOf cfg d.
Proof.
  unfold coordsOf, sortGrouped. rewrite map_map. apply map_ext.
  intros p. destruct (hasTwoParents p); reflexivity.
Qed.

Lemma node_cmds_sortGrouped (cfg : Config) (t : option string) (d : list Person) :
  flat_map (_drawNode_cmds cfg t) (sortGrouped d)
  = flat_map (_drawNode_cmds cfg t) d.
Proof.
  unfold sortGrouped. induction d as [|p d IH]; simpl; [reflexivity|].
  rewrite IH. destruct (hasTwoParents p); reflexivity.
Qed.

Lemma dragTargetId_sortGrouped (d : list Person) (t : option DragRef) :
  dragTargetId (sortGrouped d) t = dragTargetId d t.
Proof.
  destruct t as [[i|p]|]; simpl; try reflexivity.
  unfold sortGrouped. rewrite nth_error_map.
  destruct (nth_error d i) as [p|]; simpl; [|reflexivity].
  destruct (hasTwoParents p); reflexivity.
Qed.

Lemma hasTwoParents_sort_parents (p : Person) :
  hasTwoParents (sort_parents p) = hasTwoParents p.
Proof.
  unfold hasTwoParents; simpl. destruct (parents p); simpl; [|reflexivity].
  now rewrite sort_length.
Qed.

Lemma parentKey_sort_parents (p : Person) :
  parentKey (sort_parents p) = parentKey p.
Proof.
  unfold parentKey; simpl. destruct (parents p); simpl; [|reflexivity].
  now rewrite sort_idempotent.
Qed.

Lemma sort_parents_twice (p : Person) :
  sort_parents (sort_parents p) = sort_parents p.
Proof.
  unfold sort_parents, set_parents; simpl.
  destruct (parents p); simpl; [|reflexivity]. now rewrite sort_idempotent.
Qed.

Lemma sortGrouped_twice (d : list Person) :
  sortGrouped (sortGrouped d) = sortGrouped d.
Proof.
  unfold sortGrouped. rewrite map_map. apply map_ext. intros p.
  destruct (hasTwoParents p) eqn:E; [|now rewrite E].
  now rewrite hasTwoParents_sort_parents, E, sort_parents_twice.
Qed.

Lemma groupChildren_sortGrouped (d : list Person) :
  groupChildren (sortGrouped d) = groupChildren d.
Proof.
  unfold groupChildren. generalize (@nil (string * list string)).
  induction d as [|p d IH]; intros ch; simpl; [reflexivity|].
  rewrite IH. f_equal.
  destruct (hasTwoParents p) eqn:E; [|reflexivity].
  unfold addChild.
  now rewrite hasTwoParents_sort_parents, E, parentKey_sort_parents.
Qed.

Lemma drawConnections_sortGrouped (cfg : Config) (nc : list (string * Pos))
    (d : list Person) :
  _drawConnections cfg nc (sortGrouped d) = _drawConnections cfg nc d.
Proof.
  unfold _drawConnections.
  rewrite groupChildren_sortGrouped, sortGrouped_twice. reflexivity.
Qed.

(** ** C9: rendering twice *)

Lemma render_unfold (s : State) :
  render s
  = (let cfg := config s in
     let d1 := _optimizeLayout cfg (data s) in
     let nc := setAll (coordsOf cfg d1) (nodeCoords s) in
     (set_nodeCoords nc (set_data (sortGrouped d1) s),
      [ClearRect 0 0 (width (canvas s)) (height (canvas s))]
      ++ flat_map (_drawNode_cmds cfg (dragTargetId d1 (dragTarget s))) d1
      ++ snd (fst (_drawConnections cfg nc d1)),
      snd (_drawConnections cfg nc d1))).
Proof.
  unfold render. rewrite drawNodes_spec.
  unfold _drawConnections. destruct (drawSibships _ _ _ _). reflexivity.
Qed.

(** C9, as stated, fails: with the optimizer on, the second of two
    successive render passes moves P and R2 again and so issues other
    calls than the first. *)
Lemma render_twice_differs :
  let r1 := render (fresh staggered) in
  let r2 := render (fst (fst r1)) in
  map (fun p => x (pos p)) (data (fst (fst r1))) = [1; 3; 0; 2]
  /\ map (fun p => x (pos p)) (data (fst (fst r2))) = [2; 3; 0; 1]
  /\ snd (fst r1) <> snd (fst r2).
Proof.
  split; [vm_compute; reflexivity|]. split; [vm_compute; reflexivity|].
  intros H. apply (f_equal (fun l => nth_error l 4)) in H.
  vm_compute in H. discriminate.
Qed.

(** C9, amended: two successive render passes with no mutation in between
    issue the identical sequence of calls, end the same way, and the
    second leaves the whole state (positions included) as the first left
    it, whenever the optimizer is off or, being on, finds nothing to
    change in the working copy the first pass left. *)
Theorem render_twice (s : State) :
  let s1 := fst (fst (render s)) in
  autoLayoutOptimize (config s) = false
  \/ _optimizeLayout (config s) (data s1) = data s1 ->
  render s1 = render s
  /\ render s1 = (s1, snd (fst (render s)), snd (render s)).
Proof.
  intros s1 H.
  assert (Hopt : _optimizeLayout (config s) (data s1) = data s1).
  { destruct H as [H|H]; [|exact H].
    unfold _optimizeLayout. now rewrite H. }
  assert (E : render s1 = (s1, snd (fst (render s)), snd (render s))).
  { unfold s1 in *. rewrite render_data in Hopt.
    rewrite (render_unfold (fst (fst (render s)))).
    rewrite !render_unfold. cbv zeta. simpl fst. simpl snd.
    cbn [config set_nodeCoords set_data data nodeCoords canvas dragTarget].
    rewrite Hopt.
    rewrite coordsOf_sortGrouped, setAll_twice, node_cmds_sortGrouped,
      dragTargetId_sortGrouped, drawConnections_sortGrouped,
      sortGrouped_twice.
    reflexivity. }
  split; [|exact E].
  rewrite E. unfold s1. destruct (render s) as [[s' out] r]. reflexivity.
Qed.

Lemma render_twice_witness :
  render (fst (fst (render (fresh family)))) = render (fresh family).
Proof.
  refine (proj1 (render_twice (fresh family) _)).
  right. vm_compute. reflexivity.
Defined.

(** ** C10: the original snapshot *)

Lemma originalData_render (s : State) :
  originalData (fst (fst (render s))) = originalData s.
Proof. rewrite render_state. reflexivity. Qed.








(** ** C1: a sibling group whose parents have no coordinates *)

Lemma insert_index_In (e a : N * string) (l : list (N * string)) :
  In e (Js.insert_index a l) <-> e = a \/ In e l.
Proof.
  induction l as [|h t IH]; simpl; [intuition|].
  destruct (fst a <=? fst h)%N; simpl; [intuition|].
  rewrite IH. intuition.
Qed.

Lemma forin_order_In (k : string) (keys : list string) :
  In k keys -> In k (Js.forin_order keys).
Proof.
  intros H. unfold Js.forin_order. apply in_or_app.
  destruct (Js.array_index k) as [n|] eqn:E.
  - left. apply in_map_iff. exists (n, k). split; [reflexivity|].
    assert (Hin : In (n, k)
                     (flat_map (fun k0 => match Js.array_index k0 with
                                          | Some n0 => [(n0, k0)]
                                          | None => []
                                          end) keys)).
    { apply in_flat_map. exists k. rewrite E. split; [exact H|left; reflexivity]. }
    revert Hin. generalize (flat_map (fun k0 => match Js.array_index k0 with
                                                | Some n0 => [(n0, k0)]
                                                | None => []
                                                end) keys).
    induction l as [|a l IH]; simpl; [tauto|].
    intros [->|Hin]; apply insert_index_In; auto.
  - right. apply filter_In. rewrite E. auto.
Qed.

Lemma get_In_keys {V : Type} (k : string) (o : list (string * V)) :
  Js.get k o <> None -> In k (map fst o).
Proof.
  induction o as [|[k' v] o IH]; simpl; [congruence|].
  destruct (String.eqb k k') eqn:E.
  - apply String.eqb_eq in E. auto.
  - auto.
Qed.

Lemma sibship_unresolved (cfg : Config) (nc : list (string * Pos))
    (key : string) (childrenIds : list string) :
  Js.get (Js.index_key (Js.split "-" key) 0) nc = None
  \/ Js.get (Js.index_key (Js.split "-" key) 1) nc = None ->
  sibship cfg nc key childrenIds = None.
Proof.
  intros H. unfold sibship.
  destruct (Js.get (Js.index_key (Js.split "-" key) 0) nc); [|reflexivity].
  destruct (xs_of _) as [[|cx cxs]|]; try reflexivity.
  destruct H as [H|H]; [discriminate|]. now rewrite H.
Qed.

Lemma drawSibships_throws (cfg : Config) (nc : list (string * Pos))
    (ch : list (string * list string)) (k : string) :
  (forall ids, sibship cfg nc k ids = None) -> Js.get k ch <> None ->
  forall keys, In k keys -> snd (drawSibships cfg nc ch keys) = TypeError.
Proof.
  intros Hk Hg. induction keys as [|key keys IH]; intros Hin; [contradiction|].
  simpl. destruct (string_dec key k) as [->|Hne].
  - destruct (Js.get k ch) as [ids|]; [|congruence].
    now rewrite Hk.
  - destruct Hin as [Hin|Hin]; [contradiction|].
    destruct (Js.get key ch) as [ids|]; [|auto].
    destruct (sibship cfg nc key ids); [|reflexivity].
    specialize (IH Hin). destruct (drawSibships cfg nc ch keys). exact IH.
Qed.

(** C1 (the code departs from it): whenever, after the nodes are drawn,
    one of the two ids read back from the key of a sibling group has no
    entry in the Coordinate Index, the third loop of [_drawConnections]
    reads a property of [undefined] and the render pass ends with a
    [TypeError] instead of skipping the family. *)
Theorem render_unresolved_parents_TypeError (s : State) (p : Person) :
  let cfg := config s in
  let d1 := _optimizeLayout cfg (data s) in
  let nc := setAll (coordsOf cfg d1) (nodeCoords s) in
  In p d1 -> hasTwoParents p = true ->
  Js.get (Js.index_key (Js.split "-" (parentKey p)) 0) nc = None
  \/ Js.get (Js.index_key (Js.split "-" (parentKey p)) 1) nc = None ->
  snd (render s) = TypeError
  /\ nodeCoords (fst (fst (render s))) = nc.
Proof.
  intros cfg d1 nc Hp H2 Hnone.
  rewrite render_unfold. fold cfg d1 nc. cbv zeta. split; [|reflexivity].
  cbn [snd]. unfold _drawConnections.
  assert (Hg : Js.get (parentKey p) (groupChildren d1) <> None).
  { apply (get_groupChildren (parentKey p) d1 []). right.
    unfold has_children. apply existsb_exists. exists p.
    rewrite H2, String.eqb_refl. auto. }
  pose proof (drawSibships_throws cfg nc (groupChildren d1) (parentKey p)
                (fun ids => sibship_unresolved cfg nc (parentKey p) ids Hnone)
                Hg _ (forin_order_In _ _ (get_In_keys _ _ Hg))) as T.
  destruct (drawSibships _ _ _ _) as [out r]. exact T.
Qed.

Lemma render_unresolved_parents_TypeError_witness :
  snd (render (fresh orphan)) = TypeError.
Proof.
  refine (proj1 (render_unresolved_parents_TypeError (fresh orphan)
                   (person "C" "F" (1 # 2) 1 None (Some ["A"; "B"])) _ _ _)).
  - left; reflexivity.
  - reflexivity.
  - left; reflexivity.
Defined.

(* ------------------------------------------------------------------ *)
(** * Further properties of the code *)

(** ** The sibling groups of the first loop of [_drawConnections] *)

Lemma bucket_cons (k : string) (p : Person) (d : list Person) :
  bucket k (p :: d)
  = (if hasTwoParents p && String.eqb (parentKey p) k then [id p] else [])
    ++ bucket k d.
Proof.
  unfold bucket. simpl.
  destruct (hasTwoParents p && String.eqb (parentKey p) k); reflexivity.
Qed.

Lemma get_addChild_value (k : string) (ch : list (string * list string))
    (p : Person) :
  Js.get k (addChild ch p)
  = if hasTwoParents p && String.eqb (parentKey p) k
    then Some (match Js.get k ch with Some l => l | None => [] end ++ [id p])
    else Js.get k ch.
Proof.
  unfold addChild. destruct (hasTwoParents p); simpl; [|reflexivity].
  rewrite (String.eqb_sym (parentKey p) k).
  destruct (Js.get (parentKey p) ch) as [l|] eqn:G; rewrite get_set;
    destruct (String.eqb k (parentKey p)) eqn:E; try reflexivity;
    apply String.eqb_eq in E; subst k; rewrite G; reflexivity.
Qed.

Lemma get_fold_addChild (k : string) (d : list Person) :
  forall ch,
    Js.get k (fold_left addChild d ch)
    = match Js.get k ch, bucket k d with
      | Some l, b => Some (l ++ b)
      | None, [] => None
      | None, b => Some b
      end.
Proof.
  induction d as [|p d IH]; intros ch.
  - simpl. destruct (Js.get k ch); [now rewrite app_nil_r|reflexivity].
  - simpl fold_left. rewrite IH, get_addChild_value, bucket_cons.
    destruct (hasTwoParents p && String.eqb (parentKey p) k); simpl.
    + destruct (Js.get k ch); simpl; [now rewrite <- app_assoc|reflexivity].
    + reflexivity.
Qed.

Lemma get_groupChildren_bucket (d : list Person) (k : string) :
  Js.get k (groupChildren d)
  = match bucket k d with
    | [] => None
    | b => Some b
    end.
Proof. unfold groupChildren. now rewrite get_fold_addChild. Qed.

(** The first loop of [_drawConnections] files every person that has a
    two-element [parents] array under the key of that array (the ids
    sorted and joined by "-"), in dataset order, and nobody else: a key has
    a bucket exactly when some person has it, the bucket lists exactly
    those persons, and so every such person is in the bucket of its key,
    whatever the order in which its two parents are written. *)
Theorem groupChildren_buckets (d : list Person) :
  (forall k, Js.get k (groupChildren d)
             = match bucket k d with
               | [] => None
               | b => Some b
               end)
  /\ (forall p a b,
        In p d -> parents p = Some [a; b] ->
        Js.get (partnershipKey a b) (groupChildren d)
        = Some (bucket (partnershipKey a b) d)
        /\ Js.get (partnershipKey b a) (groupChildren d)
           = Some (bucket (partnershipKey a b) d)
        /\ In (id p) (bucket (partnershipKey a b) d)).
Proof.
  split; [intros k; apply get_groupChildren_bucket|].
  intros p a b Hp Hps.
  assert (Hk : partnershipKey b a = partnershipKey a b).
  { unfold partnershipKey. simpl.
    destruct (String.leb b a) eqn:E1, (String.leb a b) eqn:E2; try reflexivity.
    - now rewrite (String.leb_antisym _ _ E1 E2).
    - destruct (String.leb_total a b); congruence. }
  assert (Hin : In (id p) (bucket (partnershipKey a b) d)).
  { unfold bucket. apply in_map, filter_In. split; [exact Hp|].
    unfold hasTwoParents, parentKey. rewrite Hps. simpl.
    apply String.eqb_refl. }
  rewrite Hk, get_groupChildren_bucket.
  destruct (bucket (partnershipKey a b) d); [contradiction|auto].
Qed.

Lemma groupChildren_buckets_witness :
  In "C" (bucket (partnershipKey "B" "A") family).
Proof.
  refine (proj2 (proj2 (proj2 (groupChildren_buckets family)
            (person "C" "F" (1 # 2) 1 None (Some ["B"; "A"])) "B" "A" _ _))).
  - right; right; left; reflexivity.
  - reflexivity.
Defined.

(** ** The lines of a sibling group *)

Lemma Math_min_list_le (l : list Q) :
  forall a, Js.Math_min_list a l <= a
            /\ forall b, In b l -> Js.Math_min_list a l <= b.
Proof.
  unfold Js.Math_min_list.
  induction l as [|c l IH]; intros a; simpl.
  - split; [apply Qle_refl|contradiction].
  - destruct (IH (Qmin a c)) as [H1 H2]. split.
    + eapply Qle_trans; [exact H1|apply Q.le_min_l].
    + intros b [<-|Hb]; [|auto].
      eapply Qle_trans; [exact H1|apply Q.le_min_r].
Qed.

Lemma Math_max_list_ge (l : list Q) :
  forall a, a <= Js.Math_max_list a l
            /\ forall b, In b l -> b <= Js.Math_max_list a l.
Proof.
  unfold Js.Math_max_list.
  induction l as [|c l IH]; intros a; simpl.
  - split; [apply Qle_refl|contradiction].
  - destruct (IH (Qmax a c)) as [H1 H2]. split.
    + eapply Qle_trans; [apply Q.le_max_l|exact H1].
    + intros b [<-|Hb]; [|auto].
      eapply Qle_trans; [apply Q.le_max_r|exact H1].
Qed.

Lemma xs_of_inv (l : list (option Pos)) (xs : list Q) :
  xs_of l = Some xs ->
  exists cs, l = map Some cs /\ xs = map x cs.
Proof.
  revert xs. induction l as [|[c|] l IH]; intros xs E; simpl in E.
  - inversion E. exists []. auto.
  - destruct (xs_of l) as [xs'|]; [|discriminate]. inversion E; subst.
    destruct (IH xs' eq_refl) as (cs & -> & ->). exists (c :: cs). auto.
  - discriminate.
Qed.

Lemma childLines_of_coords (cfg : Config) (sY : Q) (cs : list Pos) :
  flat_map (fun child : option Pos =>
              match child with
              | Some c => [BeginPath; MoveTo (x c) sY;
                           LineTo (x c) (y c - nodeHeight cfg / 2); Stroke]
              | None => []
              end) (map Some cs)
  = flat_map (childLine cfg sY) cs.
Proof. induction cs as [|c cs IH]; simpl; [reflexivity|now rewrite IH]. Qed.

Lemma sibship_inv (cfg : Config) (nc : list (string * Pos)) (key : string)
    (ids : list string) (out : list cmd) :
  sibship cfg nc key ids = Some out ->
  exists p1 p2 c cs,
    Js.get (Js.index_key (Js.split "-" key) 0) nc = Some p1
    /\ Js.get (Js.index_key (Js.split "-" key) 1) nc = Some p2
    /\ map (fun i => Js.get i nc) ids = map Some (c :: cs)
    /\ out = [BeginPath;
              MoveTo (Qmin ((x p1 + x p2) / 2)
                           (Js.Math_min_list (x c) (map x cs)))
                     (y p1 + vSpacing cfg / 2);
              LineTo (Qmax ((x p1 + x p2) / 2)
                           (Js.Math_max_list (x c) (map x cs)))
                     (y p1 + vSpacing cfg / 2);
              Stroke]
             ++ flat_map (childLine cfg (y p1 + vSpacing cfg / 2)) (c :: cs).
Proof.
  unfold sibship.
  destruct (Js.get (Js.index_key (Js.split "-" key) 0) nc) as [p1|];
    [|discriminate].
  destruct (xs_of _) as [[|cx cxs]|] eqn:X; try discriminate.
  destruct (Js.get (Js.index_key (Js.split "-" key) 1) nc) as [p2|];
    [|discriminate].
  intros E. inversion E; subst; clear E.
  destruct (xs_of_inv _ _ X) as ([|c cs] & Hm & Hx); [discriminate|].
  inversion Hx; subst. exists p1, p2, c, cs.
  repeat split; try assumption.
  rewrite Hm, childLines_of_coords. reflexivity.
Qed.

(** When the third loop of [_drawConnections] draws a sibling group, its
    first stroke is the horizontal bus line at the sibship row (the row of
    the first parent read back from the key plus half the vertical
    spacing); the bus line reaches at least from the leftmost to the
    rightmost child and always includes the parents' horizontal
    midpoint. *)
Theorem sibship_bus_covers (cfg : Config) (nc : list (string * Pos))
    (key : string) (ids : list string) (out : list cmd) :
  sibship cfg nc key ids = Some out ->
  exists p1 p2 lineStart lineEnd rest,
    Js.get (Js.index_key (Js.split "-" key) 0) nc = Some p1
    /\ Js.get (Js.index_key (Js.split "-" key) 1) nc = Some p2
    /\ out = BeginPath :: MoveTo lineStart (y p1 + vSpacing cfg / 2)
             :: LineTo lineEnd (y p1 + vSpacing cfg / 2) :: Stroke :: rest
    /\ lineStart <= (x p1 + x p2) / 2 <= lineEnd
    /\ forall i c, In i ids -> Js.get i nc = Some c ->
                   lineStart <= x c <= lineEnd.
Proof.
  intros E. destruct (sibship_inv _ _ _ _ _ E)
    as (p1 & p2 & c & cs & G1 & G2 & Hm & ->).
  eexists p1, p2, _, _, _. split; [exact G1|]. split; [exact G2|].
  split; [reflexivity|]. split; [split; [apply Q.le_min_l|apply Q.le_max_l]|].
  intros i ci Hi Gi.
  assert (Hin : In ci (c :: cs)).
  { apply (in_map (fun i => Js.get i nc)) in Hi. rewrite Hm, Gi in Hi.
    apply in_map_iff in Hi. destruct Hi as (c' & Ec & Hc).
    inversion Ec; subst. exact Hc. }
  destruct (Math_min_list_le (map x cs) (x c)) as [m1 m2].
  destruct (Math_max_list_ge (map x cs) (x c)) as [M1 M2].
  split.
  - eapply Qle_trans; [apply Q.le_min_r|].
    destruct Hin as [<-|Hin]; [exact m1|apply m2, in_map, Hin].
  - eapply Qle_trans; [|apply Q.le_max_r].
    destruct Hin as [<-|Hin]; [exact M1|apply M2, in_map, Hin].
Qed.

Lemma sibship_bus_covers_witness :
  exists p1 p2 lineStart lineEnd rest,
    Js.get (Js.index_key (Js.split "-" "A-B") 0) trio = Some p1
    /\ Js.get (Js.index_key (Js.split "-" "A-B") 1) trio = Some p2
    /\ calls_of (sibship defaults trio "A-B" ["C"])
       = BeginPath :: MoveTo lineStart (y p1 + vSpacing defaults / 2)
         :: LineTo lineEnd (y p1 + vSpacing defaults / 2) :: Stroke :: rest
    /\ lineStart <= (x p1 + x p2) / 2 <= lineEnd
    /\ forall i c, In i ["C"] -> Js.get i trio = Some c ->
                   lineStart <= x c <= lineEnd.
Proof.
  exact (sibship_bus_covers defaults trio "A-B" ["C"]
           (calls_of (sibship defaults trio "A-B" ["C"])) eq_refl).
Defined.

Lemma same_point_refl (a b : Q) : same_point a b a b = true.
Proof.
  unfold same_point. apply andb_true_iff.
  split; apply Qeq_bool_iff; reflexivity.
Qed.

Lemma has_segment_cons (e : cmd) (l : list cmd) (x1 y1 x2 y2 : Q) :
  has_segment l x1 y1 x2 y2 = true -> has_segment (e :: l) x1 y1 x2 y2 = true.
Proof.
  intros H. destruct e; simpl; try exact H.
  destruct l as [|[] l]; try exact H.
  rewrite H. apply orb_true_r.
Qed.

Lemma has_segment_app (pre l : list cmd) (x1 y1 x2 y2 : Q) :
  has_segment l x1 y1 x2 y2 = true ->
  has_segment (pre ++ l) x1 y1 x2 y2 = true.
Proof.
  intros H. induction pre as [|e pre IH]; [exact H|].
  simpl app. apply has_segment_cons, IH.
Qed.

Lemma has_segment_childLines (cfg : Config) (sY : Q) (cs : list Pos) (c : Pos) :
  In c cs ->
  has_segment (flat_map (childLine cfg sY) cs)
              (x c) sY (x c) (y c - nodeHeight cfg / 2) = true.
Proof.
  intros H. apply in_split in H. destruct H as (l1 & l2 & ->).
  rewrite flat_map_app. apply has_segment_app. simpl.
  rewrite !same_point_refl. reflexivity.
Qed.

(** When the third loop of [_drawConnections] draws a sibling group, every
    child of the group is joined to the sibship row: the calls contain the
    vertical segment from the child's x on the sibship row down to the top
    edge of the child's node. *)
Theorem sibship_child_lines (cfg : Config) (nc : list (string * Pos))
    (key : string) (ids : list string) (out : list cmd) :
  sibship cfg nc key ids = Some out ->
  exists p1,
    Js.get (Js.index_key (Js.split "-" key) 0) nc = Some p1
    /\ forall i c, In i ids -> Js.get i nc = Some c ->
                   has_segment out (x c) (y p1 + vSpacing cfg / 2)
                               (x c) (y c - nodeHeight cfg / 2) = true.
Proof.
  intros E. destruct (sibship_inv _ _ _ _ _ E)
    as (p1 & p2 & c & cs & G1 & G2 & Hm & ->).
  exists p1. split; [exact G1|]. intros i ci Hi Gi.
  assert (Hin : In ci (c :: cs)).
  { apply (in_map (fun i => Js.get i nc)) in Hi. rewrite Hm, Gi in Hi.
    apply in_map_iff in Hi. destruct Hi as (c' & Ec & Hc).
    inversion Ec; subst. exact Hc. }
  apply has_segment_app, has_segment_childLines, Hin.
Qed.

Lemma sibship_child_lines_witness :
  exists p1,
    Js.get (Js.index_key (Js.split "-" "A-B") 0) trio = Some p1
    /\ forall i c, In i ["C"] -> Js.get i trio = Some c ->
                   has_segment (calls_of (sibship defaults trio "A-B" ["C"]))
                               (x c) (y p1 + vSpacing defaults / 2)
                               (x c) (y c - nodeHeight defaults / 2) = true.
Proof.
  exact (sibship_child_lines defaults trio "A-B" ["C"]
           (calls_of (sibship defaults trio "A-B" ["C"])) eq_refl).
Defined.

(** ** When a render pass completes *)

Lemma get_setAll_mono {V : Type} (k : string) (l : list (string * V)) :
  forall o, Js.get k o <> None -> Js.get k (setAll l o) <> None.
Proof.
  unfold setAll. induction l as [|[k' v] l IH]; intros o H; simpl; [exact H|].
  apply IH. rewrite get_set. destruct (String.eqb k k'); congruence.
Qed.

Lemma get_setAll_In {V : Type} (k : string) (l : list (string * V)) :
  forall o, In k (map fst l) -> Js.get k (setAll l o) <> None.
Proof.
  induction l as [|[k' v] l IH]; intros o H; [contradiction|].
  change (setAll ((k', v) :: l) o) with (setAll l (Js.set k' v o)).
  destruct (in_dec string_dec k (map fst l)) as [Hin|Hout]; [apply IH, Hin|].
  destruct H as [E|H]; [|contradiction]. simpl in E. subst k'.
  apply get_setAll_mono. rewrite get_set, String.eqb_refl. discriminate.
Qed.








Lemma frame_ids (d d' : list Person) : frame d d' -> map id d' = map id d.
Proof.
  induction 1 as [|p p' d d' Hp _ IH]; simpl; [reflexivity|].
  destruct Hp as (E & _). now rewrite E, IH.
Qed.





(** ** What a render pass does to the working copy *)

Lemma xs_update (v : Q) (d : list Person) :
  forall i, xs_of_data (Js.update i (set_pos_x v) d)
            = Js.update i (fun _ => v) (xs_of_data d).
Proof.
  unfold xs_of_data.
  induction d as [|p d IH]; intros [|i]; simpl; try reflexivity.
  now rewrite IH.
Qed.

Lemma xs_update_same (f : Person -> Person) (d : list Person) :
  (forall p, pos (f p) = pos p) ->
  forall i, xs_of_data (Js.update i f d) = xs_of_data d.
Proof.
  intros Hf i. unfold xs_of_data.
  rewrite <- !(map_map pos x), (map_pos_update f d Hf). reflexivity.
Qed.

Lemma perm_update (a b : Q) (t : list Q) :
  forall k, nth_error t k = Some b ->
            Permutation (b :: Js.update k (fun _ => a) t) (a :: t).
Proof.
  induction t as [|h t IH]; intros [|k] E; simpl in *; try discriminate.
  - inversion E; subst. apply perm_swap.
  - eapply perm_trans; [apply perm_swap|].
    eapply perm_trans; [apply perm_skip, IH, E|apply perm_swap].
Qed.

Lemma perm_exchange (l : list Q) :
  forall i k a b,
    nth_error l i = Some a -> nth_error l k = Some b ->
    Permutation (Js.update k (fun _ => a) (Js.update i (fun _ => b) l)) l.
Proof.
  induction l as [|h t IH]; intros [|i] [|k] a b Ei Ek; simpl in *;
    try discriminate.
  - inversion Ei; subst. reflexivity.
  - inversion Ei; subst. apply perm_update, Ek.
  - inversion Ek; subst. apply perm_update, Ei.
  - apply perm_skip. apply IH; assumption.
Qed.

Lemma perm_swap_x (i k : nat) (d : list Person) :
  Permutation (xs_of_data (swap_x i k d)) (xs_of_data d).
Proof.
  unfold swap_x.
  destruct (nth_error d i) as [p|] eqn:Ei; [|reflexivity].
  destruct (nth_error d k) as [r|] eqn:Ek; [|reflexivity].
  rewrite !xs_update. apply perm_exchange; unfold xs_of_data;
    rewrite nth_error_map; [rewrite Ei|rewrite Ek]; reflexivity.
Qed.

Lemma perm_obstacle_step (i j : nat) (lo hi : Q) (d : list Person) (k : nat) :
  Permutation (xs_of_data (obstacle_step i j lo hi d k)) (xs_of_data d).
Proof.
  unfold obstacle_step.
  destruct (nth_error d i) as [p|], (nth_error d j) as [q|],
           (nth_error d k) as [r|]; try reflexivity.
  destruct (isObstacle p q r lo hi); [|reflexivity].
  assert (E : xs_of_data (Js.update k sort_parents (Js.update i sort_parents d))
              = xs_of_data d)
    by (rewrite !xs_update_same; reflexivity).
  destruct (areSiblings p r); [|now rewrite E].
  eapply perm_trans; [apply perm_swap_x|now rewrite E].
Qed.

Lemma perm_fold {A : Type} (f : list Person -> A -> list Person) (l : list A) :
  (forall d a, Permutation (xs_of_data (f d a)) (xs_of_data d)) ->
  forall d, Permutation (xs_of_data (fold_left f l d)) (xs_of_data d).
Proof.
  intros Hf. induction l as [|a l IH]; intros d; simpl; [reflexivity|].
  eapply perm_trans; [apply IH|apply Hf].
Qed.

Lemma perm_optimizeLayout (cfg : Config) (d : list Person) :
  Permutation (xs_of_data (_optimizeLayout cfg d)) (xs_of_data d).
Proof.
  unfold _optimizeLayout. destruct (autoLayoutOptimize cfg); [|reflexivity].
  apply perm_fold. clear. intros d i. unfold optimize_person.
  destruct (nth_error d i) as [p|]; [|reflexivity].
  destruct (mate p) as [m|]; [|reflexivity].
  destruct (Js.truthy m); [|reflexivity].
  destruct (Js.find_index _ d) as [j|]; [|reflexivity].
  destruct (nth_error d j) as [q|]; [|reflexivity].
  apply perm_fold. intros; apply perm_obstacle_step.
Qed.

Lemma xs_sortGrouped (d : list Person) :
  xs_of_data (sortGrouped d) = xs_of_data d.
Proof.
  unfold xs_of_data, sortGrouped. rewrite map_map. apply map_ext.
  intros p. destruct (hasTwoParents p); reflexivity.
Qed.

(** A render pass never adds, drops or reorders persons, and of a person
    it changes nothing but the x-coordinate and the order of the [parents]
    array; the x-coordinates after the pass are those before it,
    redistributed among the persons; and the pass leaves the original
    snapshot, the configuration and the drag state alone. *)
Theorem render_rearranges_x_only (s : State) :
  let s' := fst (fst (render s)) in
  frame (data s) (data s')
  /\ List.length (data s') = List.length (data s)
  /\ map id (data s') = map id (data s)
  /\ Permutation (xs_of_data (data s')) (xs_of_data (data s))
  /\ originalData s' = originalData s /\ config s' = config s
  /\ isDragging s' = isDragging s /\ dragTarget s' = dragTarget s
  /\ dragOffset s' = dragOffset s.
Proof.
  intros s'. pose proof (frame_render s) as F. fold s' in F.
  split; [exact F|]. split; [symmetry; eapply Forall2_length; exact F|].
  split; [apply frame_ids, F|]. split.
  - unfold s'. rewrite render_data, xs_sortGrouped. apply perm_optimizeLayout.
  - unfold s'. rewrite render_state. repeat split.
Qed.

(** ** The Coordinate Index after a render pass *)

Lemma get_setAll_notin {V : Type} (k : string) (l : list (string * V)) :
  forall o, ~ In k (map fst l) -> Js.get k (setAll l o) = Js.get k o.
Proof.
  unfold setAll. induction l as [|[k' v] l IH]; intros o H; simpl; [reflexivity|].
  simpl in H. rewrite IH by tauto. rewrite get_set.
  destruct (String.eqb k k') eqn:E; [|reflexivity].
  apply String.eqb_eq in E. subst. tauto.
Qed.

Lemma get_setAll_nodup {V : Type} (k : string) (v : V) (l : list (string * V)) :
  forall o, NoDup (map fst l) -> In (k, v) l -> Js.get k (setAll l o) = Some v.
Proof.
  induction l as [|[k' v'] l IH]; intros o Hnd Hin; [contradiction|].
  change (setAll ((k', v') :: l) o) with (setAll l (Js.set k' v' o)).
  inversion Hnd as [|? ? Hk' Hnd']; subst.
  destruct Hin as [E|Hin].
  - inversion E; subst. rewrite get_setAll_notin by assumption.
    rewrite get_set, String.eqb_refl. reflexivity.
  - apply IH; assumption.
Qed.

Lemma nodeCoords_render (s : State) :
  nodeCoords (fst (fst (render s)))
  = setAll (coordsOf (config s) (_optimizeLayout (config s) (data s)))
           (nodeCoords s).
Proof. rewrite render_unfold. reflexivity. Qed.

Lemma coordsOf_keys (cfg : Config) (d : list Person) :
  map fst (coordsOf cfg d) = map id d.
Proof. unfold coordsOf. rewrite map_map. reflexivity. Qed.

(** After a render pass every person of the working copy has an entry in
    the Coordinate Index, and when the ids of the dataset are distinct the
    entry of a person is the pixel position of its grid position. *)
Theorem render_indexes_every_person (s : State) (p : Person) :
  let s' := fst (fst (render s)) in
  In p (data s') ->
  Js.get (id p) (nodeCoords s') <> None
  /\ (NoDup (map id (data s)) ->
      Js.get (id p) (nodeCoords s')
      = Some (_getPixelCoords (config s) (x (pos p)) (y (pos p)))).
Proof.
  intros s' Hp. unfold s' in *. rewrite nodeCoords_render.
  rewrite render_data in Hp. set (d1 := _optimizeLayout (config s) (data s)) in *.
  assert (Hq : exists q, In q d1 /\ id q = id p /\ pos q = pos p).
  { unfold sortGrouped in Hp. apply in_map_iff in Hp.
    destruct Hp as (q & E & Hq). exists q. split; [exact Hq|].
    subst p. destruct (hasTwoParents q); auto. }
  destruct Hq as (q & Hq & Ei & Ep). split.
  - apply get_setAll_In. rewrite coordsOf_keys, <- Ei. apply in_map, Hq.
  - intros Hnd. apply get_setAll_nodup.
    + rewrite coordsOf_keys. unfold d1.
      rewrite (frame_ids _ _ (frame_optimizeLayout (config s) (data s))).
      exact Hnd.
    + unfold coordsOf. apply in_map_iff. exists q. rewrite Ei, Ep. auto.
Qed.

Lemma render_indexes_every_person_witness :
  Js.get "C" (nodeCoords (fst (fst (render (fresh family))))) <> None.
Proof.
  refine (proj1 (render_indexes_every_person (fresh family)
                   (person "C" "F" (1 # 2) 1 None (Some ["A"; "B"])) _)).
  right; right; left. reflexivity.
Defined.

(** The Coordinate Index is never emptied: a render pass keeps every entry
    it finds, and leaves unchanged the entry of any id that is not the id
    of a person of the working copy, for instance the entries of a dataset
    that [setData] has replaced. *)
Theorem render_keeps_stale_entries (s : State) (k : string) :
  let s' := fst (fst (render s)) in
  (Js.get k (nodeCoords s) <> None -> Js.get k (nodeCoords s') <> None)
  /\ (~ In k (map id (data s)) ->
      Js.get k (nodeCoords s') = Js.get k (nodeCoords s)).
Proof.
  intros s'. unfold s'. rewrite nodeCoords_render. split.
  - apply get_setAll_mono.
  - intros H. apply get_setAll_notin. rewrite coordsOf_keys.
    rewrite (frame_ids _ _ (frame_optimizeLayout (config s) (data s))).
    exact H.
Qed.

Lemma render_keeps_stale_entries_witness :
  Js.get "C" (nodeCoords (fst (fst (render replaced))))
  = Js.get "C" (nodeCoords replaced).
Proof.
  refine (proj2 (render_keeps_stale_entries replaced "C") _).
  vm_compute. intros [H|[H|[H|[]]]]; discriminate.
Defined.

(** ** Hit-testing *)

Lemma find_index_some {A : Type} (f : A -> bool) (l : list A) :
  forall i, Js.find_index f l = Some i ->
            exists a, nth_error l i = Some a /\ f a = true.
Proof.
  induction l as [|a l IH]; intros i E; simpl in E; [discriminate|].
  destruct (f a) eqn:F.
  - inversion E; subst. exists a. auto.
  - destruct (Js.find_index f l) as [j|]; [|discriminate].
    inversion E; subst. apply (IH j eq_refl).
Qed.

Lemma find_index_none {A : Type} (f : A -> bool) (l : list A) :
  (forall a, In a l -> f a = false) -> Js.find_index f l = None.
Proof.
  induction l as [|a l IH]; intros H; simpl; [reflexivity|].
  rewrite (H a (or_introl eq_refl)), IH; [reflexivity|].
  intros b Hb. apply H. right; exact Hb.
Qed.

Lemma find_index_In {A : Type} (f : A -> bool) (l : list A) (a : A) :
  In a l -> f a = true -> Js.find_index f l <> None.
Proof.
  induction l as [|b l IH]; intros Hin Hf; [contradiction|].
  simpl. destruct (f b) eqn:F; [discriminate|].
  destruct Hin as [->|Hin]; [congruence|].
  specialize (IH Hin Hf). destruct (Js.find_index f l); [discriminate|congruence].
Qed.

Lemma forin_order_incl (k : string) (keys : list string) :
  In k (Js.forin_order keys) -> In k keys.
Proof.
  unfold Js.forin_order. intros H. apply in_app_or in H.
  destruct H as [H|H].
  - apply in_map_iff in H. destruct H as ([n k'] & E & H). simpl in E; subst k'.
    assert (Hin : In (n, k)
                     (flat_map (fun k0 => match Js.array_index k0 with
                                          | Some n0 => [(n0, k0)]
                                          | None => []
                                          end) keys)).
    { revert H. generalize (flat_map (fun k0 => match Js.array_index k0 with
                                                | Some n0 => [(n0, k0)]
                                                | None => []
                                                end) keys).
      induction l as [|a l IH]; simpl; [tauto|].
      intros H. apply insert_index_In in H. destruct H as [->|H]; auto. }
    apply in_flat_map in Hin. destruct Hin as (k0 & Hk0 & Hin).
    destruct (Js.array_index k0); [|contradiction].
    destruct Hin as [E|[]]. inversion E; subst. exact Hk0.
  - apply filter_In in H. tauto.
Qed.

Lemma findNode_sound (cfg : Config) (d : list Person) (nc : list (string * Pos))
    (x0 y0 : Q) (keys : list string) (i : nat) :
  findNode cfg d nc x0 y0 keys = Hit i ->
  exists p c,
    nth_error d i = Some p /\ In (id p) keys
    /\ Js.find_index (fun q => String.eqb (id q) (id p)) d = Some i
    /\ Js.get (id p) nc = Some c
    /\ isInside cfg p (x0 - x c) (y0 - y c) = true.
Proof.
  induction keys as [|k keys IH]; intros E; simpl in E; [discriminate|].
  destruct (Js.get k nc) as [c|] eqn:G; [|discriminate].
  destruct (Js.find_index _ d) as [j|] eqn:F; [|discriminate].
  destruct (nth_error d j) as [p|] eqn:N; [|discriminate].
  destruct (find_index_some _ _ _ F) as (p' & N' & Hid).
  rewrite N in N'. inversion N'; subst p'. apply String.eqb_eq in Hid.
  destruct (isInside cfg p (x0 - x c) (y0 - y c)) eqn:I.
  - inversion E; subst j. exists p, c. rewrite Hid.
    repeat split; try assumption. left; reflexivity.
  - destruct (IH E) as (p0 & c0 & H1 & H2 & H3). exists p0, c0.
    split; [exact H1|]. split; [right; exact H2|exact H3].
Qed.

(** A node found by [_findNodeAtPosition] really is under the pointer: it
    is a person of the working copy, the first with its id, it has an
    entry in the Coordinate Index, and the pointer passes the geometric
    test of its sex around that entry. *)
Theorem hit_is_under_pointer (s : State) (x0 y0 : Q) (i : nat) :
  _findNodeAtPosition s x0 y0 = Hit i ->
  exists p c,
    nth_error (data s) i = Some p
    /\ Js.find_index (fun q => String.eqb (id q) (id p)) (data s) = Some i
    /\ Js.get (id p) (nodeCoords s) = Some c
    /\ isInside (config s) p (x0 - x c) (y0 - y c) = true.
Proof.
  intros E. destruct (findNode_sound _ _ _ _ _ _ _ E)
    as (p & c & H1 & _ & H2 & H3 & H4).
  exists p, c. auto.
Qed.

Lemma hit_is_under_pointer_witness :
  exists p c,
    nth_error (data (run (fresh family) [OpRender])) 1 = Some p
    /\ Js.find_index (fun q => String.eqb (id q) (id p))
                     (data (run (fresh family) [OpRender])) = Some 1%nat
    /\ Js.get (id p) (nodeCoords (run (fresh family) [OpRender])) = Some c
    /\ isInside (config (run (fresh family) [OpRender])) p
                (150 - x c) (74 - y c) = true.
Proof.
  apply (hit_is_under_pointer (run (fresh family) [OpRender]) 150 74 1).
  vm_compute. reflexivity.
Defined.

Lemma isInside_centre (cfg : Config) (p : Person) (dx dy : Q) :
  0 <= nodeWidth cfg -> 0 <= nodeHeight cfg -> dx == 0 -> dy == 0 ->
  isInside cfg p dx dy = true.
Proof.
  intros Hw Hh Ex Ey. unfold isInside.
  assert (W : 0 <= nodeWidth cfg / 2).
  { unfold Qdiv. apply Qmult_le_0_compat; [exact Hw|discriminate]. }
  assert (H : 0 <= nodeHeight cfg / 2).
  { unfold Qdiv. apply Qmult_le_0_compat; [exact Hh|discriminate]. }
  destruct (String.eqb (sex p) "F"); apply andb_true_iff; split;
    apply Qle_bool_iff.
  - exact W.
  - rewrite Ex, Ey. setoid_replace (0 * 0 + 0 * 0) with 0 by ring.
    apply Qmult_le_0_compat; exact W.
  - rewrite Ex. exact W.
  - rewrite Ey. exact H.
Qed.

Lemma findNode_centre (cfg : Config) (d : list Person) (nc : list (string * Pos))
    (k : string) (c : Pos) (keys : list string) :
  0 <= nodeWidth cfg -> 0 <= nodeHeight cfg ->
  index_clean d nc -> Js.get k nc = Some c ->
  (forall k', In k' keys -> In k' (map fst nc)) -> In k keys ->
  exists i, findNode cfg d nc (x c) (y c) keys = Hit i.
Proof.
  intros Hw Hh Hclean G. induction keys as [|k' keys IH]; intros Hsub Hin;
    [contradiction|].
  simpl.
  assert (Hk' : In k' (map fst nc)) by (apply Hsub; left; reflexivity).
  destruct (Js.get k' nc) as [c'|] eqn:G'.
  2:{ exfalso. clear - G' Hk'. induction nc as [|[k0 v0] nc IH];
        simpl in *; [contradiction|].
      destruct (String.eqb k' k0) eqn:E; [discriminate|].
      destruct Hk' as [->|Hk']; [rewrite String.eqb_refl in E; discriminate|].
      auto. }
  apply Hclean in Hk'. apply in_map_iff in Hk'.
  destruct Hk' as (q & Eq & Hq).
  destruct (Js.find_index (fun p => String.eqb (id p) k') d) as [j|] eqn:F.
  2:{ exfalso. apply (find_index_In (fun p => String.eqb (id p) k') d q Hq);
        [apply String.eqb_eq, Eq|exact F]. }
  destruct (find_index_some _ _ _ F) as (p & N & _). rewrite N.
  destruct (isInside cfg p (x c - x c') (y c - y c')) eqn:I; [eauto|].
  destruct Hin as [->|Hin].
  - rewrite G in G'. inversion G'; subst c'.
    rewrite isInside_centre in I; [discriminate| | | |]; try assumption; ring.
  - apply IH; [|exact Hin]. intros k0 H0. apply Hsub. right; exact H0.
Qed.

(** With non-negative node sizes and a Coordinate Index whose keys are
    all ids of persons of the working copy, a pointer at the recorded
    pixel position of a node always finds a node: hit-testing neither
    misses nor throws there. *)
Theorem hit_at_centre (s : State) (k : string) (c : Pos) :
  0 <= nodeWidth (config s) -> 0 <= nodeHeight (config s) ->
  index_clean (data s) (nodeCoords s) ->
  Js.get k (nodeCoords s) = Some c ->
  exists i, _findNodeAtPosition s (x c) (y c) = Hit i.
Proof.
  intros Hw Hh Hc G. unfold _findNodeAtPosition.
  apply (findNode_centre _ _ _ k c); try assumption.
  - intros k' H. apply forin_order_incl, H.
  - apply forin_order_In. apply get_In_keys. congruence.
Qed.

Lemma hit_at_centre_witness :
  exists i, _findNodeAtPosition (run (fresh family) [OpRender]) 150 50 = Hit i.
Proof.
  refine (hit_at_centre (run (fresh family) [OpRender]) "B" (mkPos 150 50)
            _ _ _ _).
  - vm_compute; discriminate.
  - vm_compute; discriminate.
  - intros k H. vm_compute in H. vm_compute. exact H.
  - vm_compute; reflexivity.
Defined.




(** ** Dragging *)

Lemma pixelToGrid_integer (cfg : Config) (px py : Q) (zx zy : Z) :
  (px - padding_left (padding cfg)) / hSpacing cfg == inject_Z zx ->
  (py - padding_top (padding cfg)) / vSpacing cfg == inject_Z zy ->
  pixelToGrid cfg px py = mkPos (Qmax 0 (inject_Z zx)) (Qmax 0 (inject_Z zy)).
Proof.
  intros Ex Ey. unfold pixelToGrid.
  rewrite (Math_round_compat _ _ Ex), (Math_round_compat _ _ Ey).
  rewrite !Math_round_integer. reflexivity.
Qed.

(** Pressing the pointer anywhere on a node that stands on an integer
    grid cell (gx, gy), its entry in the Coordinate Index being up to
    date, and moving the pointer by (dx, dy) whole grid steps starts a
    drag of that node and assigns it the grid cell
    (max(0, gx + dx), max(0, gy + dy)) before the re-render, whatever the
    place of the press inside the node. *)
Theorem drag_by_cells (s : State) (p : Pos) (i : nat) (P : Person)
    (zx zy dx dy : Z) :
  _findNodeAtPosition s (x p) (y p) = Hit i ->
  nth_error (data s) i = Some P ->
  Js.get (id P) (nodeCoords s)
  = Some (_getPixelCoords (config s) (x (pos P)) (y (pos P))) ->
  x (pos P) == inject_Z zx -> y (pos P) == inject_Z zy ->
  ~ hSpacing (config s) == 0 -> ~ vSpacing (config s) == 0 ->
  let s1 := fst (_handleMouseDown s p) in
  let q := mkPos (x p + inject_Z dx * hSpacing (config s))
                 (y p + inject_Z dy * vSpacing (config s)) in
  let g := mkPos (Qmax 0 (inject_Z (zx + dx))) (Qmax 0 (inject_Z (zy + dy))) in
  isDragging s1 = true /\ dragTarget s1 = Some (Live i)
  /\ data s1 = data s
  /\ _handleMouseMove s1 q
     = render (set_data (Js.update i (set_pos g) (data s))
                        (set_lastMousePos q s1)).
Proof.
  intros Hhit HP G Ex Ey Hh Hv s1 q g.
  assert (E1 : s1 = set_cursor "grabbing"
                 (set_drag true (Some (Live i))
                    (mkPos (x p - (x (pos P) * hSpacing (config s)
                                   + padding_left (padding (config s))))
                           (y p - (y (pos P) * vSpacing (config s)
                                   + padding_top (padding (config s)))))
                    s)).
  { unfold s1, _handleMouseDown. rewrite Hhit, HP. simpl. rewrite G.
    reflexivity. }
  rewrite E1. cbn [isDragging dragTarget data set_cursor set_drag].
  repeat split.
  unfold _handleMouseMove.
  cbn [isDragging dragTarget dragOffset set_lastMousePos set_cursor set_drag
       config x y].
  unfold moveDragTarget.
  cbn [data set_lastMousePos set_cursor set_drag].
  rewrite (pixelToGrid_integer (config s) _ _ (zx + dx) (zy + dy)).
  - reflexivity.
  - unfold q; cbn [x y]. rewrite inject_Z_plus, Ex. field. exact Hh.
  - unfold q; cbn [x y]. rewrite inject_Z_plus, Ey. field. exact Hv.
Qed.

Lemma drag_by_cells_witness :
  isDragging (fst (_handleMouseDown (run (fresh family) [OpRender])
                                    (mkPos 160 40))) = true.
Proof.
  refine (proj1 (drag_by_cells (run (fresh family) [OpRender]) (mkPos 160 40)
                   1 (person "B" "F" 1 0 (Some "A") None) 1 0 2 1
                   _ _ _ _ _ _ _)).
  - vm_compute; reflexivity.
  - vm_compute; reflexivity.
  - vm_compute; reflexivity.
  - reflexivity.
  - reflexivity.
  - vm_compute; discriminate.
  - vm_compute; discriminate.
Defined.

(** When [setData] replaces the dataset in the middle of a drag, the drag
    target remains the object of the replaced dataset: every further
    pointer move assigns the clamped grid position to that object and
    re-renders, so the working copy after the event is what a plain render
    pass makes of it, and no person of the new dataset follows the
    pointer. *)
Theorem drag_after_setData (s : State) (newData : list Person) (i : nat)
    (p : Person) (q : Pos) :
  isDragging s = true -> dragTarget s = Some (Live i) ->
  nth_error (data s) i = Some p ->
  let s1 := fst (fst (setData s newData)) in
  let g := pixelToGrid (config s) (x q - x (dragOffset s))
                       (y q - y (dragOffset s)) in
  dragTarget s1 = Some (Detached p)
  /\ dragTarget (fst (fst (_handleMouseMove s1 q)))
     = Some (Detached (set_pos g p))
  /\ data (fst (fst (_handleMouseMove s1 q))) = data (fst (fst (render s1))).
Proof.
  intros Hd Ht Hp s1 g.
  assert (E1 : dragTarget s1 = Some (Detached p)
               /\ isDragging s1 = true /\ config s1 = config s
               /\ dragOffset s1 = dragOffset s).
  { unfold s1, setData. rewrite render_state.
    cbn [dragTarget isDragging config dragOffset set_nodeCoords set_data
         assignData set_drag].
    unfold detach. rewrite Ht, Hp, Hd. auto. }
  destruct E1 as (T1 & D1 & C1 & O1).
  split; [exact T1|].
  unfold _handleMouseMove.
  cbn [isDragging dragTarget dragOffset config set_lastMousePos].
  rewrite D1, T1, C1, O1. fold g. unfold moveDragTarget.
  split.
  - rewrite render_state. reflexivity.
  - rewrite !render_data. reflexivity.
Qed.

Lemma drag_after_setData_witness :
  dragTarget (fst (fst (setData (dragging beside (mkPos 250 50)) family)))
  = Some (Detached (person "P" "M" 2 0 (Some "Q") (Some ["a"; "b"]))).
Proof.
  refine (proj1 (drag_after_setData (dragging beside (mkPos 250 50)) family 0
                   (person "P" "M" 2 0 (Some "Q") (Some ["a"; "b"]))
                   (mkPos 0 0) _ _ _)).
  - vm_compute; reflexivity.
  - vm_compute; reflexivity.
  - vm_compute; reflexivity.
Defined.

(** After a pointer-up (or pointer-leave) no drag is in progress, whatever
    the state before, and a pointer move that follows draws nothing and
    changes neither the working copy nor the Coordinate Index: it only
    records the pointer position and sets the cursor, or ends with a
    [TypeError] of hit-testing. *)
Theorem pointer_up_ends_drag (s : State) (q : Pos) :
  let s1 := _handleMouseUp s in
  let r := _handleMouseMove s1 q in
  isDragging s1 = false
  /\ snd (fst r) = []
  /\ data (fst (fst r)) = data s1
  /\ nodeCoords (fst (fst r)) = nodeCoords s1
  /\ lastMousePos (fst (fst r)) = q
  /\ (snd r = Normal ->
      cursor (fst (fst r)) = "grab" \/ cursor (fst (fst r)) = "default").
Proof.
  intros s1 r.
  assert (D : isDragging s1 = false).
  { unfold s1, _handleMouseUp. destruct (isDragging s) eqn:E; [|exact E].
    simpl. destruct (onNodeMoved (config s)); reflexivity. }
  split; [exact D|]. unfold r, _handleMouseMove.
  cbn [isDragging set_lastMousePos]. rewrite D.
  destruct (_findNodeAtPosition _ _ _); simpl; repeat split; auto; discriminate.
Qed.

(** ** The optimizer toggle *)

Lemma config_render (s : State) : config (fst (fst (render s))) = config s.
Proof. rewrite render_state. reflexivity. Qed.

(** [toggleAutoLayoutOptimize] flips the flag and nothing else of the
    configuration, and calling it twice gives back the configuration as
    it was (the positions the optimizer exchanged in between are not put
    back). *)
Theorem toggle_twice (s : State) :
  let s1 := fst (fst (toggleAutoLayoutOptimize s)) in
  let s2 := fst (fst (toggleAutoLayoutOptimize s1)) in
  autoLayoutOptimize (config s1) = negb (autoLayoutOptimize (config s))
  /\ config s2 = config s
  /\ originalData s2 = originalData s.
Proof.
  intros s1 s2.
  assert (C1 : config s1
               = set_autoLayoutOptimize (negb (autoLayoutOptimize (config s)))
                                        (config s))
    by (unfold s1, toggleAutoLayoutOptimize; now rewrite config_render).
  assert (O1 : originalData s1 = originalData s)
    by (unfold s1, toggleAutoLayoutOptimize; now rewrite originalData_render).
  split; [now rewrite C1|]. unfold s2, toggleAutoLayoutOptimize.
  rewrite config_render, originalData_render. simpl.
  split; [|exact O1]. rewrite C1. simpl. rewrite negb_involutive.
  destruct (config s); reflexivity.
Qed.

(** ** The bars of the box *)









(** ** The label *)





(** ** Datasets without siblings *)










(** ** Assigning a dataset twice *)

Lemma detach_twice (d d' : list Person) (t : option DragRef) :
  detach d' (detach d t) = detach d t.
Proof.
  destruct t as [[i|p]|]; simpl; try reflexivity.
  destruct (nth_error d i); reflexivity.
Qed.

Lemma render_assign_twice (s : State) (d : list Person) :
  render (assignData d (fst (fst (render (assignData d s)))))
  = render (assignData d s).
Proof.
  pose proof (render_state (assignData d s)) as E1.
  set (s1 := fst (fst (render (assignData d s)))) in *.
  rewrite (render_unfold (assignData d s1)), (render_unfold (assignData d s)).
  rewrite E1. cbv zeta.
  cbn [config data nodeCoords canvas dragTarget isDragging dragOffset
       originalData cursor lastMousePos assignData set_data set_drag
       set_nodeCoords].
  rewrite !drawNodes_spec. cbn [fst].
  unfold assignData.
  cbn [config data nodeCoords canvas dragTarget isDragging dragOffset
       originalData cursor lastMousePos set_data set_drag set_nodeCoords].
  rewrite !detach_twice, setAll_twice. reflexivity.
Qed.

(** Unlike [render], [resetPositions] and [setData] are idempotent: called
    twice in a row (the second [setData] with the same dataset) they make
    the same calls on the context both times, end the same way and leave
    the same state. *)
Theorem reset_and_setData_idempotent (s : State) (newData : list Person) :
  resetPositions (fst (fst (resetPositions s))) = resetPositions s
  /\ setData (fst (fst (setData s newData))) newData = setData s newData.
Proof.
  split.
  - unfold resetPositions at 1 2. rewrite originalData_render.
    cbn [originalData assignData set_data set_drag].
    unfold resetPositions. apply render_assign_twice.
  - unfold setData. apply render_assign_twice.
Qed.

(** ** The texts of a render pass *)

Lemma fillTexts_app (a b : list cmd) :
  fillTexts (a ++ b) = fillTexts a ++ fillTexts b.
Proof. apply flat_map_app. Qed.

Lemma fillTexts_forEach (f : string -> nat -> list cmd) (l : list string) :
  (forall q i, fillTexts (f q i) = []) ->
  forall i, fillTexts (forEach_i f i l) = [].
Proof.
  intros Hf. induction l as [|q l IH]; intros i; simpl; [reflexivity|].
  now rewrite fillTexts_app, Hf, IH.
Qed.

Lemma fillTexts_fill (cfg : Config) (p : Person) (x0 y0 : Q) :
  fillTexts (_drawPhenotypeFill cfg p x0 y0) = [].
Proof.
  unfold _drawPhenotypeFill. destruct (phenotypes p) as [phs|]; [|reflexivity].
  destruct (Nat.eqb (List.length phs) 0); [reflexivity|].
  destruct (String.eqb (sex p) "F"); [|destruct (String.eqb (sex p) "M")];
    try reflexivity; apply fillTexts_forEach; intros q i;
    [unfold wedge|unfold bar]; destruct (fill_of (style_of cfg q)); reflexivity.
Qed.

Lemma fillTexts_node (cfg : Config) (t : option string) (p : Person) :
  fillTexts (_drawNode_cmds cfg t p) = label_of cfg p.
Proof.
  unfold _drawNode_cmds, label_of. rewrite !fillTexts_app.
  assert (E1 : fillTexts match t with
                         | Some t0 =>
                             if String.eqb t0 (id p)
                             then [SetShadowColor "rgba(0, 123, 255, 0.5)";
                                   SetShadowBlur 10]
                             else []
                         | None => []
                         end = [])
    by (destruct t as [t0|]; [destruct (String.eqb t0 (id p))|]; reflexivity).
  assert (E2 : fillTexts match phenotypes p with
                         | Some phs =>
                             if Nat.ltb 0 (List.length phs)
                             then _drawPhenotypeFill cfg p
                                    (x (_getPixelCoords cfg (x (pos p)) (y (pos p))))
                                    (y (_getPixelCoords cfg (x (pos p)) (y (pos p))))
                             else []
                         | None => []
                         end = []).
  { destruct (phenotypes p) as [phs|] eqn:P; [|reflexivity].
    destruct (Nat.ltb 0 (List.length phs)); [|reflexivity].
    apply fillTexts_fill. }
  rewrite E1, E2. unfold outline.
  destruct (String.eqb (sex p) "M"), (String.eqb (sex p) "F"),
    (isProband p); reflexivity.
Qed.

Lemma fillTexts_partnerships (cfg : Config) (nc : list (string * Pos))
    (ch : list (string * list string)) (d : list Person) :
  forall acc, fillTexts (snd acc) = [] ->
              fillTexts (snd (fold_left (partnership_step cfg nc ch) d acc)) = [].
Proof.
  induction d as [|p d IH]; intros acc H; [exact H|].
  simpl. apply IH. unfold partnership_step.
  destruct (mate p) as [m|]; [|exact H].
  destruct (Js.truthy m); [|exact H].
  destruct (existsb _ (fst acc)); [exact H|].
  destruct (Js.get (id p) nc); [|exact H].
  destruct (Js.get m nc); [|exact H].
  simpl. rewrite !fillTexts_app, H.
  destruct (Js.get _ ch); reflexivity.
Qed.

Lemma fillTexts_sibships (cfg : Config) (nc : list (string * Pos))
    (ch : list (string * list string)) (keys : list string) :
  fillTexts (fst (drawSibships cfg nc ch keys)) = [].
Proof.
  induction keys as [|k keys IH]; [reflexivity|].
  simpl. destruct (Js.get k ch) as [ids|]; [|exact IH].
  destruct (sibship cfg nc k ids) as [out|] eqn:E; [|reflexivity].
  destruct (drawSibships cfg nc ch keys) as [out' r]. simpl in *.
  rewrite fillTexts_app, IH, app_nil_r.
  destruct (sibship_inv _ _ _ _ _ E) as (p1 & p2 & c & cs & _ & _ & _ & ->).
  rewrite fillTexts_app. simpl.
  clear. induction cs as [|c0 cs IHl]; [reflexivity|exact IHl].
Qed.

Lemma label_of_sortGrouped (cfg : Config) (d : list Person) :
  flat_map (label_of cfg) (sortGrouped d) = flat_map (label_of cfg) d.
Proof.
  unfold sortGrouped. induction d as [|p d IH]; simpl; [reflexivity|].
  rewrite IH. destruct (hasTwoParents p); reflexivity.
Qed.

(** A render pass clears the whole canvas first, and the texts it draws
    are the labels of the persons of the working copy, each once, in
    dataset order and below the person's node; it draws no other text,
    also when it ends with a [TypeError]. *)
Theorem render_texts (s : State) :
  (exists rest,
     snd (fst (render s))
     = ClearRect 0 0 (width (canvas s)) (height (canvas s)) :: rest)
  /\ fillTexts (snd (fst (render s)))
     = flat_map (label_of (config s)) (data (fst (fst (render s)))).
Proof.
  rewrite render_data, label_of_sortGrouped, render_unfold. cbv zeta.
  cbn [fst snd]. split; [eexists; reflexivity|].
  rewrite !fillTexts_app. simpl (fillTexts [ClearRect _ _ _ _]).
  cbn [app].
  assert (C : fillTexts
                (snd (fst (_drawConnections (config s)
                             (setAll (coordsOf (config s)
                                        (_optimizeLayout (config s) (data s)))
                                     (nodeCoords s))
                             (_optimizeLayout (config s) (data s))))) = []).
  { unfold _drawConnections.
    pose proof (fillTexts_sibships (config s)
                  (setAll (coordsOf (config s)
                             (_optimizeLayout (config s) (data s)))
                          (nodeCoords s))
                  (groupChildren (_optimizeLayout (config s) (data s)))
                  (Js.forin_order
                     (map fst (groupChildren
                                 (_optimizeLayout (config s) (data s)))))) as S.
    destruct (drawSibships _ _ _ _) as [out r]. cbn [fst snd] in *.
    rewrite !fillTexts_app, S. unfold drawPartnerships.
    rewrite fillTexts_partnerships; reflexivity. }
  rewrite C, app_nil_r. clear C.
  generalize (dragTargetId (_optimizeLayout (config s) (data s)) (dragTarget s)).
  intros t. induction (_optimizeLayout (config s) (data s)) as [|p d IH];
    [reflexivity|].
  cbn [flat_map]. now rewrite fillTexts_app, fillTexts_node, IH.
Qed.
